(** * Orbital transfer by trajectory optimization: model and properties

    Shallow embedding of [hws/10.2_orbital_transfer.py]: the rocket and
    planet records, the [Universe] utility methods (planet lookup, gravity,
    continuous and discrete dynamics, orbit residuals), the cells that
    assemble the [MathematicalProgram], and the cell that reads the solver
    result back.

    Conventions of the model.
    - The methods of [Universe] are duck-typed: the notebook calls them on
      arrays of pydrake symbolic variables, the solver evaluates the
      resulting expressions on floats.  They are written once, over a type
      class [Scalar], with a numeric and a symbolic instance.
    - A float64 is idealised as a real number; [None] stands for a value
      that is not a finite real (numpy's [inf] and [nan], which is what a
      division by zero or the root of a negative number produce).  Rounding,
      overflow and underflow are not modelled: a divisor is zero here only
      if it is the real number zero.  Where that matters (the singularity
      of the gravity of a body) the method is also written on float64
      numbers, in [Float64].
    - A symbolic expression is a free syntax tree; pydrake's simplification
      on construction is not modelled, the meaning of an expression is
      [eval].  The errors pydrake itself raises when it parses a formula
      (for a quotient by the constant zero, which a rocket of zero mass
      gives) or evaluates a quotient by zero are not modelled either.
    - The solver is a function from programs to results; a solver that
      raises is not modelled.
    - Printing and exceptions are explicit: a computation returns the lines
      it printed and either the exception it raised or its value. *)

From Stdlib Require Import Reals Lra Lia String ZArith Bool Arith List.
From Stdlib Require Floats.
Import ListNotations.

Open Scope string_scope.
Open Scope list_scope.
Open Scope R_scope.

(** ** Scalars *)

(** The arithmetic the notebook uses on array entries.  [s_const] lifts a
    Python float; [s_sqrt] is [x ** .5] and [np.sqrt]; [s_pow x n] is
    [x ** n] for an integer literal [n]. *)
Class Scalar (T : Type) : Type := {
  s_const : R -> T;
  s_add : T -> T -> T;
  s_sub : T -> T -> T;
  s_mul : T -> T -> T;
  s_div : T -> T -> T;
  s_sqrt : T -> T;
  s_pow : T -> nat -> T
}.

(** Numeric scalars: a finite real, or [None] for [inf]/[nan]. *)
Definition num : Type := option R.

Definition num_lift2 (f : R -> R -> R) (x y : num) : num :=
  match x, y with
  | Some a, Some b => Some (f a b)
  | _, _ => None
  end.

Definition num_div (x y : num) : num :=
  match x, y with
  | Some a, Some b => if Req_dec_T b 0 then None else Some (a / b)
  | _, _ => None
  end.

Definition num_sqrt (x : num) : num :=
  match x with
  | Some a => if Rle_dec 0 a then Some (sqrt a) else None
  | None => None
  end.

Definition num_pow (x : num) (n : nat) : num :=
  match x with
  | Some a => Some (a ^ n)
  | None => None
  end.

Arguments num_lift2 : simpl never.
Arguments num_div : simpl never.
Arguments num_sqrt : simpl never.
Arguments num_pow : simpl never.
Arguments pow : simpl never.

#[export] Instance num_Scalar : Scalar num := {|
  s_const := fun r => Some r;
  s_add := num_lift2 Rplus;
  s_sub := num_lift2 Rminus;
  s_mul := num_lift2 Rmult;
  s_div := num_div;
  s_sqrt := num_sqrt;
  s_pow := num_pow
|}.

(** Decision variables of the program (pydrake's [Variable]):
    [prog.NewContinuousVariables(rows, cols, name)] names the entry at
    [(i, j)] by [name], [i] and [j]. *)
Record DecisionVariable : Type := mkVariable {
  var_name : string;
  var_row : nat;
  var_col : nat
}.

(** pydrake symbolic expressions. *)
Inductive Expression : Type :=
| EConst (r : R)
| EVar (v : DecisionVariable)
| EAdd (a b : Expression)
| ESub (a b : Expression)
| EMul (a b : Expression)
| EDiv (a b : Expression)
| ESqrt (a : Expression)
| EPow (a : Expression) (n : nat).

#[export] Instance Expression_Scalar : Scalar Expression := {|
  s_const := EConst;
  s_add := EAdd;
  s_sub := ESub;
  s_mul := EMul;
  s_div := EDiv;
  s_sqrt := ESqrt;
  s_pow := EPow
|}.

(** The value of an expression at an assignment of the variables, with
    numpy's reading of a quotient by zero (an invalid value, [None]). *)
Fixpoint eval (env : DecisionVariable -> R) (e : Expression) : num :=
  match e with
  | EConst r => Some r
  | EVar v => Some (env v)
  | EAdd a b => num_lift2 Rplus (eval env a) (eval env b)
  | ESub a b => num_lift2 Rminus (eval env a) (eval env b)
  | EMul a b => num_lift2 Rmult (eval env a) (eval env b)
  | EDiv a b => num_div (eval env a) (eval env b)
  | ESqrt a => num_sqrt (eval env a)
  | EPow a n => num_pow (eval env a) n
  end.

(** Relations between expressions, as built by [==], [<=] and [>=]. *)
Inductive Formula : Type :=
| FEq (lhs rhs : Expression)
| FLeq (lhs rhs : Expression)
| FGeq (lhs rhs : Expression).

(** ** Printing and exceptions *)

Inductive exn : Type :=
| AttributeError
| ValueError
| IndexError
| AssertionError.

(** What the notebook prints: a line of text, or the fuel report whose
    text embeds a float. *)
Inductive printed : Type :=
| Line (s : string)
| FuelReport (consumption : num).

Definition M (A : Type) : Type := (list printed * (exn + A))%type.

Definition ret {A : Type} (a : A) : M A := ([], inr a).

Definition raise {A : Type} (e : exn) : M A := ([], inl e).

Definition print (p : printed) : M unit := ([p], inr tt).

Definition bind {A B : Type} (m : M A) (f : A -> M B) : M B :=
  match m with
  | (out, inl e) => (out, inl e)
  | (out, inr a) => (out ++ fst (f a), snd (f a))
  end.

Notation "x <- c1 ;; c2" := (bind c1 (fun x => c2))
  (at level 61, c1 at next level, right associativity).
Notation "c1 ;;; c2" := (bind c1 (fun _ => c2))
  (at level 61, right associativity).

(** A Python [for] loop whose body updates one accumulator and may raise. *)
Fixpoint for_loop {A B : Type} (xs : list A) (body : B -> A -> M B) (acc : B)
  : M B :=
  match xs with
  | [] => ret acc
  | x :: xs' => acc' <- body acc x ;; for_loop xs' body acc'
  end.

(** [xs[i]] for a non-negative [i]. *)
Definition index {A : Type} (xs : list A) (i : nat) : M A :=
  match nth_error xs i with
  | Some x => ret x
  | None => raise IndexError
  end.

(** [raises m] : the computation ends in an exception. *)
Definition raises {A : Type} (m : M A) : Prop :=
  exists e, snd m = inl e.

(** [returns m a] : the computation ends normally with value [a]. *)
Definition returns {A : Type} (m : M A) (a : A) : Prop :=
  snd m = inr a.

(** ** numpy arrays

    A one-dimensional array is a list.  An elementwise operation of two
    arrays broadcasts an array of length one and raises [ValueError] on
    any other mismatch of lengths; [dot] requires equal lengths. *)
Section Arrays.
Context {T : Type} `{Scalar T}.

Definition zip_with (f : T -> T -> T) (xs ys : list T) : list T :=
  map (fun xy => f (fst xy) (snd xy)) (combine xs ys).

Definition elementwise (f : T -> T -> T) (xs ys : list T) : M (list T) :=
  match xs, ys with
  | [x], _ => ret (map (f x) ys)
  | _, [y] => ret (map (fun x => f x y) xs)
  | _, _ =>
      if Nat.eqb (length xs) (length ys) then ret (zip_with f xs ys)
      else raise ValueError
  end.

Definition vadd : list T -> list T -> M (list T) := elementwise s_add.
Definition vsub : list T -> list T -> M (list T) := elementwise s_sub.

(** Sum of a non-empty list from its first entry; zero for the empty one. *)
Definition sum_products (ps : list T) : T :=
  match ps with
  | [] => s_const 0
  | p :: ps' => fold_left s_add ps' p
  end.

Definition dot (xs ys : list T) : M T :=
  if Nat.eqb (length xs) (length ys) then ret (sum_products (zip_with s_mul xs ys))
  else raise ValueError.

(** [c * xs] and [xs / c] for a scalar [c]. *)
Definition scale (c : T) (xs : list T) : list T := map (s_mul c) xs.
Definition divide_by (xs : list T) (c : T) : list T :=
  map (fun x => s_div x c) xs.

(** [np.linalg.norm xs], the root of [xs.dot(xs)]. *)
Definition norm (xs : list T) : M T :=
  sq <- dot xs xs ;; ret (s_sqrt sq).

End Arrays.

(** ** Units *)

(** The keys of the dictionary [unit_converter]: ['mass'], ['length'] and
    ['time']. *)
Inductive quantity : Type := Qmass | Qlength | Qtime.

(** [unit_converter[q](x, power)]: kilos to tons, meters to hundreds of
    gigameters, seconds to years of twelve thirty-day months. *)
Definition unit_converter (q : quantity) (x : R) (power : Z) : R :=
  match q with
  | Qmass => x / powerRZ 1e3 power
  | Qlength => x / powerRZ 1e11 power
  | Qtime => x / powerRZ (60 * 60 * 24 * 30 * 12) power
  end.

(** [for (quantity, power) in units: x = unit_converter[quantity](x, power)] *)
Definition convert_units (units : list (quantity * Z)) (x : R) : R :=
  fold_left (fun x qp => unit_converter (fst qp) x (snd qp)) units x.

(** ** The rocket *)
Module Rocket.

Record t : Type := mk {
  mass : R;
  thrust_limit : R;
  velocity_limit : R
}.

Definition thrust_units : list (quantity * Z) :=
  [(Qmass, 1%Z); (Qlength, 1%Z); (Qtime, (-2)%Z)].

Definition velocity_units : list (quantity * Z) :=
  [(Qlength, 1%Z); (Qtime, (-1)%Z)].

(** [Rocket.__init__]: stores the three arguments in the scaled units.
    There is no [raise] and no [assert] in the constructor. *)
Definition init (mass thrust_limit velocity_limit : R) : M t :=
  ret {| mass := unit_converter Qmass mass 1;
         thrust_limit := convert_units thrust_units thrust_limit;
         velocity_limit := convert_units velocity_units velocity_limit |}.

End Rocket.

(** ** Planets and asteroids *)
Module Planet.

Record t : Type := mk {
  name : string;
  mass : R;
  position : list R;
  radius : num;
  orbit : R;
  color : string
}.

(** [Planet.__init__]; [radius] defaults to [np.nan], here [None]. *)
Definition init (name color : string) (mass : R) (position : list R)
  (orbit : R) (radius : num) : M t :=
  ret {| name := name;
         mass := unit_converter Qmass mass 1;
         position := map (fun x => unit_converter Qlength x 1) position;
         radius := option_map (fun x => unit_converter Qlength x 1) radius;
         orbit := unit_converter Qlength orbit 1;
         color := color |}.

End Planet.

(** Reading an attribute of the result of a lookup: [None] has none. *)
Definition attr {A : Type} (o : option Planet.t) (field : Planet.t -> A) : M A :=
  match o with
  | Some planet => ret (field planet)
  | None => raise AttributeError
  end.

(** ** The universe and its utility methods *)
Module Universe.

Record t : Type := mk {
  rocket : Rocket.t;
  planets : list Planet.t;
  G : R
}.

Definition G_units : list (quantity * Z) :=
  [(Qlength, 3%Z); (Qmass, (-1)%Z); (Qtime, (-2)%Z)].

(** [Universe.__init__]: the gravitational constant in the scaled units. *)
Definition init (rocket : Rocket.t) (planets : list Planet.t) : M t :=
  ret {| rocket := rocket;
         planets := planets;
         G := convert_units G_units 6.67e-11 |}.

(** The loop of [get_planet]: the first planet with the given name. *)
Fixpoint find_planet (planets : list Planet.t) (name : string)
  : option Planet.t :=
  match planets with
  | [] => None
  | planet :: rest =>
      if String.eqb (Planet.name planet) name then Some planet
      else find_planet rest name
  end.

(** [get_planet]: falls off the loop after printing, so returns [None]. *)
Definition get_planet (u : t) (name : string) : M (option Planet.t) :=
  match find_planet (planets u) name with
  | Some planet => ret (Some planet)
  | None =>
      print (Line (name ++ " is not in the Universe!")%string) ;;; ret None
  end.

Section Methods.
Context {T : Type} `{Scalar T}.

Definition position_wrt_planet (u : t) (state : list T) (name : string)
  : M (list T) :=
  planet <- get_planet u name ;;
  position <- attr planet Planet.position ;;
  vsub (firstn 2 state) (map s_const position).

Definition acceleration_from_planet (u : t) (state : list T) (name : string)
  : M (list T) :=
  p <- position_wrt_planet u state name ;;
  pp <- dot p p ;;
  let d := s_sqrt pp in
  planet <- get_planet u name ;;
  mass <- attr planet Planet.mass ;;
  ret (scale (s_div (s_const ((- G u) * mass)) (s_pow d 3)) p).

Definition rocket_continuous_dynamics (u : t) (state thrust : list T)
  : M (list T) :=
  let a := divide_by thrust (s_const (Rocket.mass (rocket u))) in
  a <- for_loop (planets u)
         (fun a planet =>
            g <- acceleration_from_planet u state (Planet.name planet) ;;
            vadd a g)
         a ;;
  ret (skipn 2 state ++ a).

Definition rocket_discrete_dynamics (u : t) (state state_next thrust : list T)
  (time_step : R) : M (list T) :=
  state_dot <- rocket_continuous_dynamics u state_next thrust ;;
  step <- vsub state_next state ;;
  vsub step (scale (s_const time_step) state_dot).

Definition constraint_state_to_orbit (u : t) (state : list T)
  (planet_name : string) : M (list T) :=
  planet <- get_planet u planet_name ;;
  position <- attr planet Planet.position ;;
  p <- vsub (firstn 2 state) (map s_const position) ;;
  let v := skipn 2 state in
  pp <- dot p p ;;
  orbit <- attr planet Planet.orbit ;;
  let residual_p := s_sub pp (s_const (orbit ^ 2)) in
  residual_v <- dot p v ;;
  a <- acceleration_from_planet u state planet_name ;;
  pa <- dot p a ;;
  vv <- dot v v ;;
  let residual_a := s_add pa vv in
  ret [residual_p; residual_v; residual_a].

End Methods.

End Universe.

(** ** The optimization problem *)
Module MathematicalProgram.

Record t : Type := mk {
  decision_variables : list DecisionVariable;
  constraints : list Formula;
  costs : list Expression
}.

Definition new : t :=
  {| decision_variables := []; constraints := []; costs := [] |}.

(** A [rows] by [cols] matrix of fresh variables, added to the program. *)
Definition NewContinuousVariables (prog : t) (rows cols : nat) (name : string)
  : list (list DecisionVariable) * t :=
  let vars :=
    map (fun i => map (fun j => mkVariable name i j) (seq 0 cols)) (seq 0 rows) in
  (vars,
   {| decision_variables := decision_variables prog ++ concat vars;
      constraints := constraints prog;
      costs := costs prog |}).

(** The formula is appended as it is; it is not parsed. *)
Definition AddConstraint (prog : t) (f : Formula) : t :=
  {| decision_variables := decision_variables prog;
     constraints := constraints prog ++ [f];
     costs := costs prog |}.

Definition AddCost (prog : t) (e : Expression) : t :=
  {| decision_variables := decision_variables prog;
     constraints := constraints prog;
     costs := costs prog ++ [e] |}.

End MathematicalProgram.

Module MathematicalProgramResult.

(** What the solver hands back: the success flag and a value per variable. *)
Record t : Type := mk {
  is_success : bool;
  value : DecisionVariable -> R
}.

Definition GetSolution (result : t) (vars : list (list DecisionVariable))
  : list (list num) :=
  map (map (fun v => Some (value result v))) vars.

End MathematicalProgramResult.

(** ** The cells that write the trajectory optimization

    The globals of the notebook ([universe], [rocket], [asteroids],
    [time_interval], [time_steps]) are arguments; [time_steps] is a
    natural number (100 in the notebook).  The cell of the initial guess
    only seeds the solver, adds neither a constraint nor a cost, and is
    left out; the pydrake interpolation it calls wants the time span
    [time_steps * time_interval] to be positive. *)
Section Trajopt.
Import MathematicalProgram.

Variable universe : Universe.t.
Variable rocket : Rocket.t.
Variable asteroids : list Planet.t.
Variable time_interval : R.
Variable time_steps : nat.

(** [for residual in residuals: prog.AddConstraint(residual == 0)] *)
Definition add_residuals (prog : t) (residuals : list Expression) : t :=
  fold_left (fun prog residual => AddConstraint prog (FEq residual (EConst 0)))
    residuals prog.

(** A row of the matrix of variables, as an array of expressions. *)
Definition row (vars : list (list DecisionVariable)) (i : nat)
  : M (list Expression) :=
  r <- index vars i ;; ret (map EVar r).

(** initial orbit constraints, on [state[0]] *)
Definition initial_orbit_constraints (state : list (list DecisionVariable))
  (prog : t) : M t :=
  s <- row state 0 ;;
  residuals <- Universe.constraint_state_to_orbit universe s "Earth" ;;
  ret (add_residuals prog residuals).

(** terminal orbit constraints, on [state[-1]] *)
Definition terminal_orbit_constraints (state : list (list DecisionVariable))
  (prog : t) : M t :=
  s <- row state (length state - 1) ;;
  residuals <- Universe.constraint_state_to_orbit universe s "Mars" ;;
  ret (add_residuals prog residuals).

(** discretized dynamics *)
Definition discretized_dynamics (state thrust : list (list DecisionVariable))
  (prog : t) : M t :=
  for_loop (seq 0 time_steps)
    (fun prog t =>
       s <- row state t ;;
       s_next <- row state (t + 1) ;;
       u <- row thrust t ;;
       residuals <-
         Universe.rocket_discrete_dynamics universe s s_next u time_interval ;;
       ret (add_residuals prog residuals))
    prog.

(** thrust limits *)
Definition thrust_limits (thrust : list (list DecisionVariable)) (prog : t)
  : M t :=
  for_loop (seq 0 time_steps)
    (fun prog t =>
       u <- row thrust t ;;
       thrust_norm <- dot u u ;;
       ret (AddConstraint prog
              (FLeq thrust_norm (EConst (Rocket.thrust_limit rocket ^ 2)))))
    prog.

(** velocity limits *)
Definition velocity_limits (state : list (list DecisionVariable)) (prog : t)
  : M t :=
  for_loop (seq 0 time_steps)
    (fun prog t =>
       s <- row state t ;;
       vel_norm <- norm (skipn 2 s) ;;
       ret (AddConstraint prog
              (FLeq vel_norm (EConst (Rocket.velocity_limit rocket)))))
    prog.

(** avoid collision with asteroids *)
Definition avoid_asteroids (state : list (list DecisionVariable)) (prog : t)
  : M t :=
  for_loop (seq 0 (time_steps + 1))
    (fun prog t =>
       for_loop asteroids
         (fun prog asteroid =>
            s <- row state t ;;
            p <- Universe.position_wrt_planet universe s
                   (Planet.name asteroid) ;;
            distance <- norm p ;;
            ret (AddConstraint prog
                   (FGeq distance (EConst (Planet.orbit asteroid)))))
         prog)
    prog.

(** minimize fuel consumption: the expression handed to [prog.AddCost] *)
Definition fuel_cost (thrust : list (list DecisionVariable)) : M Expression :=
  for_loop (seq 0 time_steps)
    (fun cost t =>
       u <- row thrust t ;;
       uu <- dot u u ;;
       ret (s_add cost (s_mul (s_const time_interval) uu)))
    (s_const 0).

(** All the cells, in the order of the notebook. *)
Definition trajopt
  : M (t * list (list DecisionVariable) * list (list DecisionVariable)) :=
  let prog := new in
  let '(state, prog) := NewContinuousVariables prog (time_steps + 1) 4 "state" in
  let '(thrust, prog) := NewContinuousVariables prog time_steps 2 "thrust" in
  prog <- initial_orbit_constraints state prog ;;
  prog <- terminal_orbit_constraints state prog ;;
  prog <- discretized_dynamics state thrust prog ;;
  prog <- thrust_limits thrust prog ;;
  prog <- velocity_limits state prog ;;
  prog <- avoid_asteroids state prog ;;
  cost <- fuel_cost thrust ;;
  ret (AddCost prog cost, state, thrust).

End Trajopt.

(** ** Solving and reading the solution back *)
Section Solve.
Context {T : Type} `{Scalar T}.

(** [time_interval * sum(t.dot(t) for t in thrust)]; [sum] starts at 0. *)
Definition fuel_consumption (thrust : list (list T)) (time_interval : R)
  : M T :=
  total <- for_loop thrust
             (fun acc t => sq <- dot t t ;; ret (s_add acc sq))
             (s_const 0) ;;
  ret (s_mul (s_const time_interval) total).

End Solve.

(** The cell that solves: [solver] is the external nonlinear solver, taken
    to return a result. *)
Definition solve_and_report
  (solver : MathematicalProgram.t -> MathematicalProgramResult.t)
  (prog : MathematicalProgram.t)
  (state thrust : list (list DecisionVariable)) (time_interval : R)
  : M (list (list num) * list (list num)) :=
  let result := solver prog in
  (if MathematicalProgramResult.is_success result then ret tt
   else raise AssertionError) ;;;
  let thrust_opt := MathematicalProgramResult.GetSolution result thrust in
  let state_opt := MathematicalProgramResult.GetSolution result state in
  consumption <- fuel_consumption thrust_opt time_interval ;;
  print (FuelReport consumption) ;;;
  ret (thrust_opt, state_opt).

(** ** Notation for numeric scalars *)
Declare Scope num_scope.
Delimit Scope num_scope with num.
Infix "+" := (num_lift2 Rplus) : num_scope.
Infix "-" := (num_lift2 Rminus) : num_scope.
Infix "*" := (num_lift2 Rmult) : num_scope.
Infix "/" := num_div : num_scope.

(** A state with finite entries: position [(x, y)], velocity [(vx, vy)]. *)
Definition state_of (x y vx vy : R) : list num :=
  [Some x; Some y; Some vx; Some vy].

(** ** The gravity field, as the specification words it

    The net acceleration at [(x, y)]: the sum over the bodies of
    [-G * mass_i * (p - pos_i) / |p - pos_i|^3]. *)
Definition gravity_term (G : R) (body : Planet.t) (x y : R) : num * num :=
  let qx := x - nth 0 (Planet.position body) 0 in
  let qy := y - nth 1 (Planet.position body) 0 in
  let d := sqrt (qx * qx + qy * qy) in
  (num_div (Some (- G * Planet.mass body * qx)) (Some (d ^ 3)),
   num_div (Some (- G * Planet.mass body * qy)) (Some (d ^ 3))).

Arguments gravity_term : simpl never.

Definition gravity_field (G : R) (bodies : list Planet.t) (x y : R)
  : num * num :=
  fold_right
    (fun body acc =>
       ((fst (gravity_term G body x y) + fst acc)%num,
        (snd (gravity_term G body x y) + snd acc)%num))
    (Some 0, Some 0) bodies.

(** Planets are told apart by their names. *)
Definition distinct_names (u : Universe.t) : Prop :=
  NoDup (map Planet.name (Universe.planets u)).

(** Every planet sits at a point of the plane. *)
Definition planar (u : Universe.t) : Prop :=
  forall body, In body (Universe.planets u) ->
    length (Planet.position body) = 2%nat.

(** ** Closed forms of the numeric results *)

(** The acceleration due to one body of mass [m], at the offset [(qx, qy)]
    from it: the value [acceleration_from_planet] computes on floats. *)
Definition body_acceleration (G m qx qy : R) : list num :=
  let coefficient :=
    num_div (Some (- G * m)) (Some (sqrt (qx * qx + qy * qy) ^ 3)) in
  [num_lift2 Rmult coefficient (Some qx);
   num_lift2 Rmult coefficient (Some qy)].

(** The radial-acceleration residual read with the net gravity of all the
    registered bodies (the gravity-field sum) in the place of [a]. *)
Definition residual_a_net_gravity (u : Universe.t) (body : Planet.t)
  (x y vx vy : R) : num :=
  let qx := x - nth 0 (Planet.position body) 0 in
  let qy := y - nth 1 (Planet.position body) 0 in
  let g := gravity_field (Universe.G u) (Universe.planets u) x y in
  num_lift2 Rplus
    (num_lift2 Rplus (num_lift2 Rmult (Some qx) (fst g))
                     (num_lift2 Rmult (Some qy) (snd g)))
    (Some (vx * vx + vy * vy)).

(** The same residual with the gravity of the target body alone. *)
Definition residual_a_target_gravity (u : Universe.t) (body : Planet.t)
  (x y vx vy : R) : num :=
  let qx := x - nth 0 (Planet.position body) 0 in
  let qy := y - nth 1 (Planet.position body) 0 in
  let g := gravity_term (Universe.G u) body x y in
  num_lift2 Rplus
    (num_lift2 Rplus (num_lift2 Rmult (Some qx) (fst g))
                     (num_lift2 Rmult (Some qy) (snd g)))
    (Some (vx * vx + vy * vy)).

(** ** The constraints the cells add, in closed form *)

Definition state_entry (t j : nat) : Expression :=
  EVar (mkVariable "state" t j).

Definition thrust_entry (t j : nat) : Expression :=
  EVar (mkVariable "thrust" t j).

(** [thrust[t] . thrust[t]] *)
Definition thrust_squared (t : nat) : Expression :=
  EAdd (EMul (thrust_entry t 0) (thrust_entry t 0))
       (EMul (thrust_entry t 1) (thrust_entry t 1)).

Definition thrust_limit_constraint (rocket : Rocket.t) (t : nat) : Formula :=
  FLeq (thrust_squared t) (EConst (Rocket.thrust_limit rocket ^ 2)).

(** The norm of the velocity of [state[t]] is at most the limit. *)
Definition velocity_limit_constraint (rocket : Rocket.t) (t : nat) : Formula :=
  FLeq (ESqrt (EAdd (EMul (state_entry t 2) (state_entry t 2))
                    (EMul (state_entry t 3) (state_entry t 3))))
       (EConst (Rocket.velocity_limit rocket)).

(** The distance of [state[t]] to the asteroid is at least its [orbit]. *)
Definition keep_out_constraint (asteroid : Planet.t) (t : nat) : Formula :=
  let p0 := ESub (state_entry t 0)
                 (EConst (nth 0 (Planet.position asteroid) 0)) in
  let p1 := ESub (state_entry t 1)
                 (EConst (nth 1 (Planet.position asteroid) 0)) in
  FGeq (ESqrt (EAdd (EMul p0 p0) (EMul p1 p1)))
       (EConst (Planet.orbit asteroid)).

Definition keep_out_constraints (asteroids : list Planet.t) (time_steps : nat)
  : list Formula :=
  flat_map (fun t => map (fun asteroid => keep_out_constraint asteroid t)
                         asteroids)
           (seq 0 (time_steps + 1)).

(** The cost expression: [0 + h * u0.u0 + h * u1.u1 + ...]. *)
Definition fuel_cost_expression (time_interval : R) (time_steps : nat)
  : Expression :=
  fold_left
    (fun cost t => EAdd cost (EMul (EConst time_interval) (thrust_squared t)))
    (seq 0 time_steps) (EConst 0).

Definition is_equality (f : Formula) : bool :=
  match f with FEq _ _ => true | _ => false end.

Definition is_upper_bound (f : Formula) : bool :=
  match f with FLeq _ _ => true | _ => false end.

Definition is_lower_bound (f : Formula) : bool :=
  match f with FGeq _ _ => true | _ => false end.

(** Does a formula bound the norm of the velocity of [state[t]]? *)
Definition bounds_velocity_of (t : nat) (f : Formula) : Prop :=
  exists limit,
    f = FLeq (ESqrt (EAdd (EMul (state_entry t 2) (state_entry t 2))
                          (EMul (state_entry t 3) (state_entry t 3))))
             (EConst limit).

(** What the cells assume of the globals: planar positions, an ['Earth']
    and a ['Mars'] in the universe, and every asteroid registered in the
    universe under its own name. *)
Definition globals_ready (universe : Universe.t) (asteroids : list Planet.t)
  : Prop :=
  planar universe
  /\ (exists earth,
        Universe.find_planet (Universe.planets universe) "Earth" = Some earth)
  /\ (exists mars,
        Universe.find_planet (Universe.planets universe) "Mars" = Some mars)
  /\ (forall asteroid, In asteroid asteroids ->
        Universe.find_planet (Universe.planets universe)
          (Planet.name asteroid) = Some asteroid).

(** The matrix of variables [NewContinuousVariables] returns. *)
Definition variable_matrix (name : string) (rows cols : nat)
  : list (list DecisionVariable) :=
  map (fun i => map (fun j => mkVariable name i j) (seq 0 cols)) (seq 0 rows).

(** A program with more constraints. *)
Definition add_constraints (prog : MathematicalProgram.t) (fs : list Formula)
  : MathematicalProgram.t :=
  {| MathematicalProgram.decision_variables :=
       MathematicalProgram.decision_variables prog;
     MathematicalProgram.constraints :=
       MathematicalProgram.constraints prog ++ fs;
     MathematicalProgram.costs := MathematicalProgram.costs prog |}.

(** The program the cells assemble, up to its equality constraints. *)
Definition assembled_program (rocket : Rocket.t) (asteroids : list Planet.t)
  (time_interval : R) (time_steps : nat) (eqs : list Formula)
  : MathematicalProgram.t :=
  {| MathematicalProgram.decision_variables :=
       concat (variable_matrix "state" (time_steps + 1) 4)
       ++ concat (variable_matrix "thrust" time_steps 2);
     MathematicalProgram.constraints :=
       eqs
       ++ map (thrust_limit_constraint rocket) (seq 0 time_steps)
       ++ map (velocity_limit_constraint rocket) (seq 0 time_steps)
       ++ keep_out_constraints asteroids time_steps;
     MathematicalProgram.costs :=
       [fuel_cost_expression time_interval time_steps] |}.

(** [sum over t in ts of f t] *)
Definition sum_over (f : nat -> R) (ts : list nat) : R :=
  fold_right (fun t acc => f t + acc) 0 ts.

(** [thrust_t . thrust_t] at the values [env] gives to the variables. *)
Definition thrust_energy (env : DecisionVariable -> R) (t : nat) : R :=
  env (mkVariable "thrust" t 0) * env (mkVariable "thrust" t 0)
  + env (mkVariable "thrust" t 1) * env (mkVariable "thrust" t 1).

(** ** The gravity of one body on float64 numbers

    The body of [acceleration_from_planet], for the planet the lookup
    returns, on binary64 floats: [G], [mass] and the planet position
    [(px, py)] are floats, [(x, y)] is [state[:2]].  The products of
    [p.dot(p)] are summed in order; [** .5] is written as the rounded
    root and [** 3] as two rounded products, which is what the powers
    are at the value zero, the one the properties below are about. *)
Module Float64.
Import PrimFloat.
Local Open Scope float_scope.

(** [d ** 3], the divisor *)
Definition distance_cubed (px py x y : float) : float :=
  let p0 := x - px in
  let p1 := y - py in
  let d := sqrt (p0 * p0 + p1 * p1) in
  d * d * d.

Definition acceleration_from_planet (G mass px py x y : float)
  : float * float :=
  let p0 := x - px in
  let p1 := y - py in
  let d := sqrt (p0 * p0 + p1 * p1) in
  let coefficient := - G * mass / (d * d * d) in
  (coefficient * p0, coefficient * p1).

(** A float that is not zero and whose square underflows: [2^-600]. *)
Definition tiny : float := 0x1p-600.

End Float64.

(** ** Sample data *)

Definition sample_rocket : Rocket.t :=
  {| Rocket.mass := 1; Rocket.thrust_limit := 1; Rocket.velocity_limit := 1 |}.

Definition sample_planet (name : string) (mass x y orbit : R) : Planet.t :=
  {| Planet.name := name; Planet.mass := mass; Planet.position := [x; y];
     Planet.radius := None; Planet.orbit := orbit; Planet.color := "red" |}.

(** One body of unit mass at the origin, with unit gravitational constant. *)
Definition one_body : Universe.t :=
  {| Universe.rocket := sample_rocket;
     Universe.planets := [sample_planet "Mars" 1 0 0 1];
     Universe.G := 1 |}.

(** Two bodies of unit mass, two units apart. *)
Definition two_bodies : Universe.t :=
  {| Universe.rocket := sample_rocket;
     Universe.planets :=
       [sample_planet "Earth" 1 0 0 1; sample_planet "Mars" 1 2 0 1];
     Universe.G := 1 |}.

(** An ['Earth'], a ['Mars'] and one asteroid between them. *)
Definition sample_asteroid : Planet.t := sample_planet "Asteroid_0" 1 1 1 1.

Definition sample_universe : Universe.t :=
  {| Universe.rocket := sample_rocket;
     Universe.planets :=
       [sample_planet "Earth" 1 2 0 1; sample_planet "Mars" 1 0 0 1;
        sample_asteroid];
     Universe.G := 1 |}.

(** A solver that fails. *)
Definition failing_solver (prog : MathematicalProgram.t)
  : MathematicalProgramResult.t :=
  {| MathematicalProgramResult.is_success := false;
     MathematicalProgramResult.value := fun _ => 0 |}.

(** Two bodies under one name: the lookup only ever returns the first. *)
Definition shadowed_bodies : Universe.t :=
  {| Universe.rocket := sample_rocket;
     Universe.planets :=
       [sample_planet "Ceres" 1 0 0 1; sample_planet "Ceres" 1 2 0 1];
     Universe.G := 1 |}.

(** An ['Earth'] whose position has three entries. *)
Definition misshapen_earth : Planet.t :=
  {| Planet.name := "Earth"; Planet.mass := 1; Planet.position := [2; 0; 0];
     Planet.radius := None; Planet.orbit := 1; Planet.color := "green" |}.

From Stdlib Require Import DecimalString DecimalNat.

(** ** The gravity on the surface of a planet

    [Universe.gravity_on_planet_surface] prints a line that embeds a float
    and divides Python floats ([G], the mass and the radius of a planet
    are floats of the constructors), where a zero divisor raises
    [ZeroDivisionError].  Its output and its exception extend the ones
    above. *)
Inductive surface_printed : Type :=
| AsPrinted (p : printed)
| GravityLine (name : string) (g : R).

Inductive surface_exn : Type :=
| AsRaised (e : exn)
| ZeroDivisionError.

Definition g_inverse_units : list (quantity * Z) :=
  [(Qlength, (-1)%Z); (Qtime, 2%Z)].

Definition gravity_on_planet_surface (u : Universe.t) (name : string)
  : list surface_printed * (surface_exn + unit) :=
  match Universe.get_planet u name with
  | (out, inl e) => (map AsPrinted out, inl (AsRaised e))
  | (out, inr None) => (map AsPrinted out, inr tt)
  | (out, inr (Some planet)) =>
      match Planet.radius planet with
      | None =>
          (map AsPrinted out
           ++ [AsPrinted (Line (name ++ " has unknown radius.")%string)],
           inr tt)
      | Some radius =>
          if Req_dec_T (radius ^ 2) 0
          then (map AsPrinted out, inl ZeroDivisionError)
          else
            let g := Universe.G u * Planet.mass planet / radius ^ 2 in
            let g := convert_units g_inverse_units g in
            (map AsPrinted out ++ [GravityLine name g], inr tt)
      end
  end.

(** The Earth of the notebook, as its constructor stores it. *)
Definition earth : Planet.t :=
  {| Planet.name := "Earth";
     Planet.mass := unit_converter Qmass 5.972e24 1;
     Planet.position := map (fun x => unit_converter Qlength x 1) [2.25e11; 0];
     Planet.radius := option_map (fun x => unit_converter Qlength x 1)
                        (Some 6.378e6);
     Planet.orbit := unit_converter Qlength 2e10 1;
     Planet.color := "green" |}.

(** A constructed universe that holds the Earth alone. *)
Definition earth_alone : Universe.t :=
  {| Universe.rocket := sample_rocket;
     Universe.planets := [earth];
     Universe.G := convert_units Universe.G_units 6.67e-11 |}.

(** One body, and a rocket whose mass is zero. *)
Definition massless_rocket_universe : Universe.t :=
  {| Universe.rocket :=
       {| Rocket.mass := 0; Rocket.thrust_limit := 1;
          Rocket.velocity_limit := 1 |};
     Universe.planets := [sample_planet "Mars" 1 0 0 1];
     Universe.G := 1 |}.

(** ** Expressions and their values *)

(** The result of a computation, mapped. *)
Definition map_M {A B : Type} (f : A -> B) (m : M A) : M B :=
  (fst m, match snd m with inl e => inl e | inr a => inr (f a) end).

(** The values of an array of expressions. *)
Definition values (env : DecisionVariable -> R) (es : list Expression)
  : list num :=
  map (eval env) es.

(** ** Satisfying the constraints *)

(** An assignment of the variables satisfies a formula when both sides
    have real values and these stand in the relation. *)
Definition holds (env : DecisionVariable -> R) (f : Formula) : Prop :=
  match f with
  | FEq a b => exists x, eval env a = Some x /\ eval env b = Some x
  | FLeq a b =>
      exists x y, eval env a = Some x /\ eval env b = Some y /\ x <= y
  | FGeq a b =>
      exists x y, eval env a = Some x /\ eval env b = Some y /\ x >= y
  end.

(** The rows [state[t]] and [thrust[t]] of the variables, as arrays of
    expressions, and their values. *)
Definition state_row (t : nat) : list Expression :=
  [state_entry t 0; state_entry t 1; state_entry t 2; state_entry t 3].

Definition thrust_row (t : nat) : list Expression :=
  [thrust_entry t 0; thrust_entry t 1].

(** The value a computation returns, or the empty array if it raises. *)
Definition returned (m : M (list Expression)) : list Expression :=
  match snd m with
  | inr residuals => residuals
  | inl _ => []
  end.

Definition residual_equalities (m : M (list Expression)) : list Formula :=
  map (fun r => FEq r (EConst 0)) (returned m).

(** The equality constraints of the program: the orbit residuals of the
    first state for ['Earth'] and of the last for ['Mars'], then the
    residuals of the dynamics of each time step. *)
Definition equality_constraints (universe : Universe.t) (time_interval : R)
  (time_steps : nat) : list Formula :=
  residual_equalities
    (Universe.constraint_state_to_orbit universe (state_row 0) "Earth")
  ++ residual_equalities
       (Universe.constraint_state_to_orbit universe (state_row time_steps)
          "Mars")
  ++ flat_map
       (fun t =>
          residual_equalities
            (Universe.rocket_discrete_dynamics universe (state_row t)
               (state_row (t + 1)) (thrust_row t) time_interval))
       (seq 0 time_steps).

(** The speed of [state[t]] and its distance to a body, at an assignment
    of the variables. *)
Definition speed (env : DecisionVariable -> R) (t : nat) : R :=
  sqrt (env (mkVariable "state" t 2) * env (mkVariable "state" t 2)
        + env (mkVariable "state" t 3) * env (mkVariable "state" t 3)).

Definition distance_to (env : DecisionVariable -> R) (t : nat)
  (body : Planet.t) : R :=
  sqrt ((env (mkVariable "state" t 0) - nth 0 (Planet.position body) 0)
        * (env (mkVariable "state" t 0) - nth 0 (Planet.position body) 0)
        + (env (mkVariable "state" t 1) - nth 1 (Planet.position body) 0)
          * (env (mkVariable "state" t 1) - nth 1 (Planet.position body) 0)).

(** What a trajectory has to meet: both ends on their orbits, the
    discrete dynamics at every step, the thrust limit at every step, the
    velocity limit at every state but the last, and every state out of
    the danger area of every asteroid. *)
Definition trajectory_conditions (universe : Universe.t) (rocket : Rocket.t)
  (asteroids : list Planet.t) (time_interval : R) (time_steps : nat)
  (env : DecisionVariable -> R) : Prop :=
  Universe.constraint_state_to_orbit universe (values env (state_row 0))
    "Earth" = ret [Some 0; Some 0; Some 0]
  /\ Universe.constraint_state_to_orbit universe
       (values env (state_row time_steps)) "Mars"
     = ret [Some 0; Some 0; Some 0]
  /\ (forall t, (t < time_steps)%nat ->
        Universe.rocket_discrete_dynamics universe
          (values env (state_row t)) (values env (state_row (t + 1)))
          (values env (thrust_row t)) time_interval
        = ret [Some 0; Some 0; Some 0; Some 0])
  /\ (forall t, (t < time_steps)%nat ->
        thrust_energy env t <= Rocket.thrust_limit rocket ^ 2)
  /\ (forall t, (t < time_steps)%nat ->
        speed env t <= Rocket.velocity_limit rocket)
  /\ (forall t asteroid, (t <= time_steps)%nat -> In asteroid asteroids ->
        distance_to env t asteroid >= Planet.orbit asteroid).

(** The sum over the rows [(a, b)] of a thrust array of [a*a + b*b]. *)
Definition energy_sum (us : list (R * R)) : R :=
  fold_right (fun p acc => fst p * fst p + snd p * snd p + acc) 0 us.

(** A thrust array of finite entries. *)
Definition thrust_array (us : list (R * R)) : list (list num) :=
  map (fun p => [Some (fst p); Some (snd p)]) us.

(** A solver that succeeds, with every variable at zero. *)
Definition zero_solver (prog : MathematicalProgram.t)
  : MathematicalProgramResult.t :=
  {| MathematicalProgramResult.is_success := true;
     MathematicalProgramResult.value := fun _ => 0 |}.

(** A planet whose radius is zero, alone in a universe. *)
Definition point_planet_universe : Universe.t :=
  {| Universe.rocket := sample_rocket;
     Universe.planets :=
       [{| Planet.name := "Point"; Planet.mass := 1;
           Planet.position := [0; 0]; Planet.radius := Some 0;
           Planet.orbit := 1; Planet.color := "red" |}];
     Universe.G := 1 |}.

(** ** The notebook from its first cell

    The rocket, the two planets and the asteroids are constructed, then
    the universe; the pseudo-random samples that set the asteroids are
    an argument, one [asteroid_draw] per asteroid. *)
Record asteroid_draw : Type := mk_draw {
  mass_draw : R;
  position_draw : R * R;
  orbit_draw : R
}.

(** [f'Asteroid_{i}'] *)
Definition asteroid_name (i : nat) : string :=
  ("Asteroid_" ++ NilEmpty.string_of_uint (Nat.to_uint i))%string.

Definition make_asteroid (i : nat) (d : asteroid_draw) : M Planet.t :=
  Planet.init (asteroid_name i) "brown" (mass_draw d * 5e22)
    [fst (position_draw d) * 5e10 + 1e11;
     snd (position_draw d) * 5e10 + - 1e10]
    (Rabs (orbit_draw d) * 1e10) None.

Definition make_asteroids (draws : list asteroid_draw) : M (list Planet.t) :=
  for_loop (combine (seq 0 (length draws)) draws)
    (fun asteroids id =>
       asteroid <- make_asteroid (fst id) (snd id) ;;
       ret (asteroids ++ [asteroid]))
    [].

Definition setup (draws : list asteroid_draw)
  : M (Universe.t * Rocket.t * list Planet.t) :=
  rocket <- Rocket.init 5.49e5 0.25 170 ;;
  earth <- Planet.init "Earth" "green" 5.972e24 [2.25e11; 0] 2e10
             (Some 6.378e6) ;;
  mars <- Planet.init "Mars" "red" 6.417e23 [0; 0] 1.5e10 (Some 3.389e6) ;;
  asteroids <- make_asteroids draws ;;
  universe <- Universe.init rocket ([earth; mars] ++ asteroids) ;;
  ret (universe, rocket, asteroids).

(** What the constructors of the first cells store. *)
Definition falcon : Rocket.t :=
  {| Rocket.mass := unit_converter Qmass 5.49e5 1;
     Rocket.thrust_limit := convert_units Rocket.thrust_units 0.25;
     Rocket.velocity_limit := convert_units Rocket.velocity_units 170 |}.

Definition mars : Planet.t :=
  {| Planet.name := "Mars";
     Planet.mass := unit_converter Qmass 6.417e23 1;
     Planet.position := map (fun x => unit_converter Qlength x 1) [0; 0];
     Planet.radius := option_map (fun x => unit_converter Qlength x 1)
                        (Some 3.389e6);
     Planet.orbit := unit_converter Qlength 1.5e10 1;
     Planet.color := "red" |}.

Definition asteroid_of (i : nat) (d : asteroid_draw) : Planet.t :=
  {| Planet.name := asteroid_name i;
     Planet.mass := unit_converter Qmass (mass_draw d * 5e22) 1;
     Planet.position :=
       map (fun x => unit_converter Qlength x 1)
         [fst (position_draw d) * 5e10 + 1e11;
          snd (position_draw d) * 5e10 + - 1e10];
     Planet.radius := None;
     Planet.orbit := unit_converter Qlength (Rabs (orbit_draw d) * 1e10) 1;
     Planet.color := "brown" |}.

Definition asteroids_of (draws : list asteroid_draw) : list Planet.t :=
  map (fun id => asteroid_of (fst id) (snd id))
    (combine (seq 0 (length draws)) draws).

Definition universe_of (draws : list asteroid_draw) : Universe.t :=
  {| Universe.rocket := falcon;
     Universe.planets := [earth; mars] ++ asteroids_of draws;
     Universe.G := convert_units Universe.G_units 6.67e-11 |}.

(** The cell that double checks the physics: three calls of
    [gravity_on_planet_surface], the next one made if the last returned. *)
Definition surface_then (a b : list surface_printed * (surface_exn + unit))
  : list surface_printed * (surface_exn + unit) :=
  match a with
  | (out, inl e) => (out, inl e)
  | (out, inr _) => (out ++ fst b, snd b)
  end.

Definition double_check_physics (universe : Universe.t)
  : list surface_printed * (surface_exn + unit) :=
  surface_then (gravity_on_planet_surface universe "Earth")
    (surface_then (gravity_on_planet_surface universe "Mars")
       (gravity_on_planet_surface universe "Jupiter")).
(** ** Basic facts about the monad *)

Lemma bind_ret_l {A B : Type} (a : A) (f : A -> M B) :
  bind (ret a) f = f a.
Proof.
  unfold bind, ret. simpl. destruct (f a). reflexivity.
Qed.

Lemma bind_raise {A B : Type} (e : exn) (f : A -> M B) :
  bind (raise e) f = raise e.
Proof. reflexivity. Qed.

Lemma bind_bind {A B C : Type} (m : M A) (f : A -> M B) (g : B -> M C) :
  bind (bind m f) g = bind m (fun a => bind (f a) g).
Proof.
  destruct m as [out [e | a]]; simpl; [reflexivity |].
  destruct (f a) as [out' [e | b]]; simpl; [reflexivity |].
  destruct (g b) as [out'' r]; simpl. now rewrite app_assoc.
Qed.

(** ** Looking a planet up *)

Lemma find_planet_some planets name planet :
  Universe.find_planet planets name = Some planet ->
  In planet planets /\ Planet.name planet = name.
Proof.
  induction planets as [| p rest IH]; simpl; [discriminate |].
  destruct (String.eqb (Planet.name p) name) eqn:E.
  - intros [= <-]. apply String.eqb_eq in E. auto.
  - intros Hf. destruct (IH Hf). auto.
Qed.

Lemma find_planet_none planets name :
  Universe.find_planet planets name = None <->
  (forall planet, In planet planets -> Planet.name planet <> name).
Proof.
  induction planets as [| p rest IH]; simpl.
  - split; [intros _ ? [] | reflexivity].
  - destruct (String.eqb (Planet.name p) name) eqn:E.
    + apply String.eqb_eq in E. split; [discriminate |].
      intros Hall. exfalso. apply (Hall p); auto.
    + apply String.eqb_neq in E. rewrite IH. split.
      * intros Hall q [<- | Hq]; auto.
      * intros Hall q Hq. apply Hall. auto.
Qed.

Lemma find_planet_distinct planets planet :
  NoDup (map Planet.name planets) ->
  In planet planets ->
  Universe.find_planet planets (Planet.name planet) = Some planet.
Proof.
  induction planets as [| p rest IH]; simpl; [intros _ [] |].
  intros Hnd [-> | Hin].
  - now rewrite String.eqb_refl.
  - inversion Hnd as [| ? ? Hnotin Hnd']; subst.
    destruct (String.eqb (Planet.name p) (Planet.name planet)) eqn:E.
    + apply String.eqb_eq in E. exfalso. apply Hnotin. rewrite E.
      now apply in_map.
    + auto.
Qed.

Lemma get_planet_found u name planet :
  Universe.find_planet (Universe.planets u) name = Some planet ->
  Universe.get_planet u name = ret (Some planet).
Proof. unfold Universe.get_planet. now intros ->. Qed.

Lemma get_planet_missing u name :
  Universe.find_planet (Universe.planets u) name = None ->
  Universe.get_planet u name
  = ([Line (name ++ " is not in the Universe!")%string], inr None).
Proof. unfold Universe.get_planet. now intros ->. Qed.

(** ** Unknown planet names *)

(** C10. For a name that matches no registered planet, [get_planet]
    prints the not-found line and returns [None] without raising, and
    [position_wrt_planet], [acceleration_from_planet] and
    [constraint_state_to_orbit] called with that name raise
    [AttributeError] (the attribute read on [None]) after that one line:
    none of them returns a vector. *)
Theorem unknown_planet_name {T : Type} `{Scalar T}
  (u : Universe.t) (name : string) (state : list T) :
  (forall planet, In planet (Universe.planets u) ->
     Planet.name planet <> name) ->
  let message := Line (name ++ " is not in the Universe!")%string in
  Universe.get_planet u name = ([message], inr None)
  /\ Universe.position_wrt_planet u state name
     = ([message], inl AttributeError)
  /\ Universe.acceleration_from_planet u state name
     = ([message], inl AttributeError)
  /\ Universe.constraint_state_to_orbit u state name
     = ([message], inl AttributeError).
Proof.
  intros Hnone message. apply find_planet_none in Hnone.
  pose proof (get_planet_missing u name Hnone) as Hget.
  unfold Universe.acceleration_from_planet, Universe.constraint_state_to_orbit,
    Universe.position_wrt_planet.
  rewrite Hget. repeat split; reflexivity.
Qed.

Lemma unknown_planet_name_witness :
  Universe.get_planet one_body "Jupiter"
  = ([Line "Jupiter is not in the Universe!"], inr None)
  /\ Universe.position_wrt_planet one_body (state_of 1 0 0 1) "Jupiter"
     = ([Line "Jupiter is not in the Universe!"], inl AttributeError)
  /\ Universe.acceleration_from_planet one_body (state_of 1 0 0 1) "Jupiter"
     = ([Line "Jupiter is not in the Universe!"], inl AttributeError)
  /\ Universe.constraint_state_to_orbit one_body (state_of 1 0 0 1) "Jupiter"
     = ([Line "Jupiter is not in the Universe!"], inl AttributeError).
Proof.
  apply (unknown_planet_name one_body "Jupiter" (state_of 1 0 0 1)).
  intros planet [<- | []]. simpl. discriminate.
Defined.

(** ** Numeric evaluation of the methods *)

Lemma num_lift2_some (f : R -> R -> R) (a b : R) :
  num_lift2 f (Some a) (Some b) = Some (f a b).
Proof. reflexivity. Qed.

Lemma num_pow_some (a : R) (n : nat) : num_pow (Some a) n = Some (a ^ n).
Proof. reflexivity. Qed.

Lemma num_div_nonzero (a b : R) :
  b <> 0 -> num_div (Some a) (Some b) = Some (a / b).
Proof.
  intros Hb. unfold num_div. now destruct (Req_dec_T b 0).
Qed.

Lemma num_div_zero (a : R) : num_div (Some a) (Some 0) = None.
Proof.
  unfold num_div. destruct (Req_dec_T 0 0) as [_ | Hne]; [reflexivity |].
  now contradiction Hne.
Qed.

Lemma square_sum_nonneg (a b : R) : 0 <= a * a + b * b.
Proof. nra. Qed.

Lemma num_sqrt_square_sum (a b : R) :
  num_sqrt (Some (a * a + b * b)) = Some (sqrt (a * a + b * b)).
Proof.
  unfold num_sqrt. destruct (Rle_dec 0 (a * a + b * b)) as [_ | Hneg].
  - reflexivity.
  - exfalso. apply Hneg. nra.
Qed.

Create Rewrite HintDb num_eval.
#[local] Hint Rewrite num_lift2_some num_pow_some num_sqrt_square_sum
  : num_eval.

Lemma position_wrt_planet_num u name body px py x y rest :
  Universe.find_planet (Universe.planets u) name = Some body ->
  Planet.position body = [px; py] ->
  Universe.position_wrt_planet u (Some x :: Some y :: rest) name
  = ret [Some (x - px); Some (y - py)].
Proof.
  intros Hfind Hpos. unfold Universe.position_wrt_planet.
  rewrite (get_planet_found _ _ _ Hfind), bind_ret_l. simpl attr.
  rewrite bind_ret_l, Hpos. reflexivity.
Qed.

Lemma acceleration_from_planet_num u name body px py x y rest :
  Universe.find_planet (Universe.planets u) name = Some body ->
  Planet.position body = [px; py] ->
  Universe.acceleration_from_planet u (Some x :: Some y :: rest) name
  = ret (body_acceleration (Universe.G u) (Planet.mass body) (x - px) (y - py)).
Proof.
  intros Hfind Hpos. unfold Universe.acceleration_from_planet.
  rewrite (position_wrt_planet_num _ _ _ _ _ _ _ _ Hfind Hpos), bind_ret_l.
  unfold dot. simpl Nat.eqb. cbv iota. rewrite bind_ret_l.
  rewrite (get_planet_found _ _ _ Hfind), bind_ret_l. simpl attr.
  rewrite bind_ret_l. unfold body_acceleration, scale. simpl.
  autorewrite with num_eval. reflexivity.
Qed.

Lemma num_scale_div (c D q : R) :
  num_lift2 Rmult (num_div (Some c) (Some D)) (Some q)
  = num_div (Some (c * q)) (Some D).
Proof.
  unfold num_div. destruct (Req_dec_T D 0); [reflexivity |].
  rewrite num_lift2_some. f_equal. now field.
Qed.

Lemma body_acceleration_gravity_term G body x y px py :
  Planet.position body = [px; py] ->
  body_acceleration G (Planet.mass body) (x - px) (y - py)
  = [fst (gravity_term G body x y); snd (gravity_term G body x y)].
Proof.
  intros Hpos. unfold body_acceleration, gravity_term. rewrite Hpos.
  simpl. now rewrite !num_scale_div.
Qed.

Lemma constraint_state_to_orbit_num u name body px py x y vx vy :
  Universe.find_planet (Universe.planets u) name = Some body ->
  Planet.position body = [px; py] ->
  Universe.constraint_state_to_orbit u (state_of x y vx vy) name
  = ret [Some ((x - px) * (x - px) + (y - py) * (y - py)
               - Planet.orbit body ^ 2);
         Some ((x - px) * vx + (y - py) * vy);
         residual_a_target_gravity u body x y vx vy].
Proof.
  intros Hfind Hpos. unfold Universe.constraint_state_to_orbit, state_of.
  rewrite (get_planet_found _ _ _ Hfind), bind_ret_l. simpl attr.
  rewrite bind_ret_l, Hpos.
  rewrite (acceleration_from_planet_num _ _ _ _ _ _ _ _ Hfind Hpos).
  rewrite (body_acceleration_gravity_term _ _ _ _ _ _ Hpos).
  unfold residual_a_target_gravity. rewrite Hpos. simpl.
  autorewrite with num_eval. reflexivity.
Qed.

Lemma gravity_term_on_circle G body x y px py r :
  Planet.position body = [px; py] ->
  0 < r ->
  sqrt ((x - px) * (x - px) + (y - py) * (y - py)) = r ->
  gravity_term G body x y
  = (Some (- G * Planet.mass body * (x - px) / r ^ 3),
     Some (- G * Planet.mass body * (y - py) / r ^ 3)).
Proof.
  intros Hpos Hr Hd. unfold gravity_term. rewrite Hpos. simpl nth.
  cbv zeta. rewrite Hd.
  assert (r ^ 3 <> 0) by (apply pow_nonzero; lra).
  now rewrite !num_div_nonzero.
Qed.

(** ** The orbit-membership residual *)

(** C2, amended. The third component of the orbit-membership residual is
    [(p - body.position) . a + v . v] where [a] is the gravitational
    acceleration due to the target body alone,
    [-G * mass * (p - body.position) / |p - body.position|^3]. *)
Theorem orbit_residual_a_target_body (u : Universe.t) (name : string)
  (body : Planet.t) (px py x y vx vy : R) :
  Universe.find_planet (Universe.planets u) name = Some body ->
  Planet.position body = [px; py] ->
  exists residual_p residual_v,
    Universe.constraint_state_to_orbit u (state_of x y vx vy) name
    = ret [residual_p; residual_v;
           residual_a_target_gravity u body x y vx vy].
Proof.
  intros Hfind Hpos. do 2 eexists.
  apply (constraint_state_to_orbit_num _ _ _ _ _ _ _ _ _ Hfind Hpos).
Qed.

Lemma orbit_residual_a_target_body_witness :
  exists residual_p residual_v,
    Universe.constraint_state_to_orbit two_bodies (state_of 1 0 0 0) "Earth"
    = ret [residual_p; residual_v;
           residual_a_target_gravity two_bodies
             (sample_planet "Earth" 1 0 0 1) 1 0 0 0].
Proof.
  apply (orbit_residual_a_target_body two_bodies "Earth"
           (sample_planet "Earth" 1 0 0 1) 0 0 1 0 0 0); reflexivity.
Defined.

Lemma sqrt_unit_offset (a b : R) :
  a * a + b * b = 1 -> sqrt (a * a + b * b) = 1.
Proof. intros ->. apply sqrt_1. Qed.

Lemma two_bodies_target_residual :
  residual_a_target_gravity two_bodies (sample_planet "Earth" 1 0 0 1) 1 0 0 0
  = Some (-1).
Proof.
  unfold residual_a_target_gravity.
  rewrite (gravity_term_on_circle _ _ 1 0 0 0 1); simpl;
    [| reflexivity | lra | apply sqrt_unit_offset; lra].
  autorewrite with num_eval. f_equal. field.
Qed.

Lemma two_bodies_net_residual :
  residual_a_net_gravity two_bodies (sample_planet "Earth" 1 0 0 1) 1 0 0 0
  = Some 0.
Proof.
  unfold residual_a_net_gravity, gravity_field. simpl.
  rewrite !sqrt_unit_offset by lra.
  rewrite !num_div_nonzero by (apply pow_nonzero; lra).
  autorewrite with num_eval. f_equal. field.
Qed.

(** C2, as stated, fails: with two bodies the residual the code returns
    for a state on the orbit of the first differs from the one computed
    with the net gravity of both. *)
Lemma orbit_residual_a_not_net_gravity :
  exists residuals,
    Universe.constraint_state_to_orbit two_bodies (state_of 1 0 0 0) "Earth"
    = ret residuals
    /\ nth_error residuals 2
       <> Some (residual_a_net_gravity two_bodies
                  (sample_planet "Earth" 1 0 0 1) 1 0 0 0).
Proof.
  eexists. split.
  - apply (constraint_state_to_orbit_num two_bodies "Earth"
             (sample_planet "Earth" 1 0 0 1) 0 0); reflexivity.
  - simpl. rewrite two_bodies_target_residual, two_bodies_net_residual.
    intros [= Heq]. lra.
Qed.

(** C4. A state on the circular orbit of a body (at distance [r], the
    orbit radius, from it), with zero radial velocity and speed
    [sqrt (G * mass / r)], has the zero vector as its orbit-membership
    residual.  The radius is positive and [G * mass / r] is not negative,
    so that the speed is a real number. *)
Theorem circular_orbit_zero_residual (u : Universe.t) (name : string)
  (body : Planet.t) (px py x y vx vy : R) :
  Universe.find_planet (Universe.planets u) name = Some body ->
  Planet.position body = [px; py] ->
  0 < Planet.orbit body ->
  0 <= Universe.G u * Planet.mass body / Planet.orbit body ->
  sqrt ((x - px) * (x - px) + (y - py) * (y - py)) = Planet.orbit body ->
  (x - px) * vx + (y - py) * vy = 0 ->
  sqrt (vx * vx + vy * vy)
  = sqrt (Universe.G u * Planet.mass body / Planet.orbit body) ->
  Universe.constraint_state_to_orbit u (state_of x y vx vy) name
  = ret [Some 0; Some 0; Some 0].
Proof.
  intros Hfind Hpos Hr Hreal Hdist Hradial Hspeed.
  rewrite (constraint_state_to_orbit_num _ _ _ _ _ _ _ _ _ Hfind Hpos).
  set (r := Planet.orbit body) in *.
  assert (Hsq : (x - px) * (x - px) + (y - py) * (y - py) = r * r).
  { rewrite <- Hdist. symmetry. apply sqrt_sqrt, square_sum_nonneg. }
  assert (Hvv : vx * vx + vy * vy = Universe.G u * Planet.mass body / r).
  { apply sqrt_inj; [apply square_sum_nonneg | exact Hreal | exact Hspeed]. }
  unfold residual_a_target_gravity.
  rewrite (gravity_term_on_circle _ _ _ _ _ _ r Hpos Hr Hdist), Hpos.
  simpl. autorewrite with num_eval. rewrite Hradial, Hvv.
  assert (Hp : (x - px) * (x - px) + (y - py) * (y - py) - r ^ 2 = 0)
    by (rewrite Hsq; ring).
  assert (Ha : (x - px) * (- Universe.G u * Planet.mass body * (x - px) / r ^ 3)
               + (y - py) * (- Universe.G u * Planet.mass body * (y - py) / r ^ 3)
               + Universe.G u * Planet.mass body / r = 0).
  { transitivity (- Universe.G u * Planet.mass body / r ^ 3
                  * ((x - px) * (x - px) + (y - py) * (y - py))
                  + Universe.G u * Planet.mass body / r).
    - field. lra.
    - rewrite Hsq. field. lra. }
  now rewrite Hp, Ha.
Qed.

Lemma circular_orbit_zero_residual_witness :
  Universe.constraint_state_to_orbit one_body (state_of 1 0 0 1) "Mars"
  = ret [Some 0; Some 0; Some 0].
Proof.
  apply (circular_orbit_zero_residual one_body "Mars"
           (sample_planet "Mars" 1 0 0 1) 0 0 1 0 0 1); simpl;
    try reflexivity; try lra.
  - apply sqrt_unit_offset. lra.
  - f_equal. lra.
Defined.

(** ** Where the gravity of a body is singular *)

Lemma body_acceleration_at_center G m :
  body_acceleration G m 0 0 = [None; None].
Proof.
  unfold body_acceleration. cbv zeta.
  replace (sqrt (0 * 0 + 0 * 0) ^ 3) with 0.
  - now rewrite num_div_zero.
  - replace (0 * 0 + 0 * 0) with 0 by ring. rewrite sqrt_0. ring.
Qed.

Lemma body_acceleration_off_center G m qx qy :
  ~ (qx = 0 /\ qy = 0) ->
  sqrt (qx * qx + qy * qy) ^ 3 <> 0
  /\ exists ax ay, body_acceleration G m qx qy = [Some ax; Some ay].
Proof.
  intros Hoff.
  assert (Hd : sqrt (qx * qx + qy * qy) ^ 3 <> 0).
  { apply pow_nonzero. intros Hz. apply sqrt_eq_0 in Hz.
    - apply Hoff. now apply Rplus_sqr_eq_0.
    - apply square_sum_nonneg. }
  split; [exact Hd |].
  unfold body_acceleration. cbv zeta. rewrite num_div_nonzero by exact Hd.
  autorewrite with num_eval. eauto.
Qed.

(** The acceleration due to a registered body is invalid at its center
    and a pair of reals everywhere else. *)
Lemma acceleration_from_planet_singular u body x y rest :
  distinct_names u -> planar u ->
  In body (Universe.planets u) ->
  (Planet.position body = [x; y] ->
   Universe.acceleration_from_planet u (Some x :: Some y :: rest)
     (Planet.name body) = ret [None; None])
  /\ (Planet.position body <> [x; y] ->
      exists ax ay,
        Universe.acceleration_from_planet u (Some x :: Some y :: rest)
          (Planet.name body) = ret [Some ax; Some ay]).
Proof.
  intros Hnames Hplanar Hin.
  pose proof (find_planet_distinct _ _ Hnames Hin) as Hfind.
  pose proof (Hplanar _ Hin) as Hlen.
  destruct (Planet.position body) as [| px [| py [| ? ?]]] eqn:Hpos;
    try discriminate Hlen.
  rewrite (acceleration_from_planet_num _ _ _ _ _ x y rest Hfind Hpos).
  split.
  - intros [= -> ->]. replace (x - x) with 0 by ring.
    replace (y - y) with 0 by ring. now rewrite body_acceleration_at_center.
  - intros Hne.
    destruct (body_acceleration_off_center (Universe.G u) (Planet.mass body)
                (x - px) (y - py)) as [_ [ax [ay Hval]]].
    + intros [Hx Hy]. apply Hne. f_equal; [lra | f_equal; lra].
    + exists ax, ay. now rewrite Hval.
Qed.

Lemma one_body_well_formed : distinct_names one_body /\ planar one_body.
Proof.
  split.
  - unfold distinct_names. simpl. repeat constructor. intros [].
  - intros body [<- | []]. reflexivity.
Qed.

(** On float64 numbers: the offset [2^-600] is not zero, yet its square
    underflows, the divisor [d ** 3] is zero and the acceleration is
    [(-inf, nan)]. *)
Lemma float64_underflow :
  PrimFloat.eqb Float64.tiny PrimFloat.zero = false
  /\ PrimFloat.eqb
       (Float64.distance_cubed PrimFloat.zero PrimFloat.zero Float64.tiny
          PrimFloat.zero)
       PrimFloat.zero = true
  /\ Float64.acceleration_from_planet PrimFloat.one PrimFloat.one
       PrimFloat.zero PrimFloat.zero Float64.tiny PrimFloat.zero
     = (PrimFloat.neg_infinity, PrimFloat.nan).
Proof. repeat split; vm_compute; reflexivity. Qed.

(** At the place of the second of two bodies of one name, the pull of
    every name of the universe is a pair of reals. *)
Lemma shadowed_body_is_not_singular :
  In (sample_planet "Ceres" 1 2 0 1) (Universe.planets shadowed_bodies)
  /\ forall body, In body (Universe.planets shadowed_bodies) ->
       exists ax ay,
         Universe.acceleration_from_planet shadowed_bodies (state_of 2 0 0 0)
           (Planet.name body) = ret [Some ax; Some ay].
Proof.
  split; [simpl; auto |].
  assert (Hval : exists ax ay,
            Universe.acceleration_from_planet shadowed_bodies
              (state_of 2 0 0 0) "Ceres" = ret [Some ax; Some ay]).
  { destruct (body_acceleration_off_center 1 1 (2 - 0) (0 - 0))
      as [_ [ax [ay Hacc]]]; [intros [H _]; lra |].
    exists ax, ay. rewrite <- Hacc.
    apply (acceleration_from_planet_num shadowed_bodies "Ceres"
             (sample_planet "Ceres" 1 0 0 1) 0 0 2 0 [Some 0; Some 0]
             eq_refl eq_refl). }
  intros body [<- | [<- | []]]; exact Hval.
Qed.

(** C9, as stated, fails in two ways.  On float64 numbers the division
    by zero is reached at a position that differs from the position of
    the body: at the offset [2^-600] the divisor underflows to zero and
    the acceleration is [(-inf, nan)].  And with two bodies of one name
    the position of the second is the position of a body, yet no
    division by zero is reached there. *)
Lemma division_by_zero_not_exactly_at_centers :
  (PrimFloat.eqb Float64.tiny PrimFloat.zero = false
   /\ PrimFloat.eqb
        (Float64.distance_cubed PrimFloat.zero PrimFloat.zero Float64.tiny
           PrimFloat.zero)
        PrimFloat.zero = true
   /\ Float64.acceleration_from_planet PrimFloat.one PrimFloat.one
        PrimFloat.zero PrimFloat.zero Float64.tiny PrimFloat.zero
      = (PrimFloat.neg_infinity, PrimFloat.nan))
  /\ (In (sample_planet "Ceres" 1 2 0 1) (Universe.planets shadowed_bodies)
      /\ forall body, In body (Universe.planets shadowed_bodies) ->
           exists ax ay,
             Universe.acceleration_from_planet shadowed_bodies
               (state_of 2 0 0 0) (Planet.name body)
             = ret [Some ax; Some ay]).
Proof.
  split; [exact float64_underflow | exact shadowed_body_is_not_singular].
Qed.

(** C9, amended. In a universe whose bodies have distinct names and
    planar positions, and in exact real arithmetic: at a query position
    that differs from the position of every registered body, the
    acceleration due to each body is a pair of real numbers (no division
    by zero occurs); and the division by zero, which makes the result
    invalid, occurs for some body exactly when the query position is the
    position of some body.  On float64 numbers the divisor is also zero
    at positions that differ from the position of the body by so little
    that it underflows, as at the offset [2^-600], where the result is
    [(-inf, nan)]. *)
Theorem division_by_zero_at_centers (u : Universe.t) (x y : R)
  (rest : list num) :
  distinct_names u -> planar u ->
  let state := Some x :: Some y :: rest in
  ((forall body, In body (Universe.planets u) ->
      Planet.position body <> [x; y]) ->
   forall body, In body (Universe.planets u) ->
     exists ax ay,
       Universe.acceleration_from_planet u state (Planet.name body)
       = ret [Some ax; Some ay])
  /\ ((exists body, In body (Universe.planets u)
         /\ Universe.acceleration_from_planet u state (Planet.name body)
            = ret [None; None])
      <-> (exists body, In body (Universe.planets u)
             /\ Planet.position body = [x; y]))
  /\ (PrimFloat.eqb Float64.tiny PrimFloat.zero = false
      /\ PrimFloat.eqb
           (Float64.distance_cubed PrimFloat.zero PrimFloat.zero
              Float64.tiny PrimFloat.zero)
           PrimFloat.zero = true
      /\ Float64.acceleration_from_planet PrimFloat.one PrimFloat.one
           PrimFloat.zero PrimFloat.zero Float64.tiny PrimFloat.zero
         = (PrimFloat.neg_infinity, PrimFloat.nan)).
Proof.
  intros Hnames Hplanar state. split; [| split].
  - intros Hoff body Hin.
    destruct (acceleration_from_planet_singular u body x y rest
                Hnames Hplanar Hin) as [_ Hfinite].
    apply Hfinite, Hoff, Hin.
  - split; intros [body [Hin Hb]]; exists body; split; try exact Hin.
    + destruct (acceleration_from_planet_singular u body x y rest
                  Hnames Hplanar Hin) as [_ Hfinite].
      destruct (list_eq_dec Req_dec_T (Planet.position body) [x; y])
        as [Heq | Hne]; [exact Heq |].
      destruct (Hfinite Hne) as [ax [ay Hval]].
      unfold state in Hb. rewrite Hval in Hb. discriminate Hb.
    + destruct (acceleration_from_planet_singular u body x y rest
                  Hnames Hplanar Hin) as [Hcenter _].
      apply Hcenter, Hb.
  - exact float64_underflow.
Qed.

Lemma division_by_zero_at_centers_witness :
  ((forall body, In body (Universe.planets one_body) ->
      Planet.position body <> [1; 0]) ->
   forall body, In body (Universe.planets one_body) ->
     exists ax ay,
       Universe.acceleration_from_planet one_body (state_of 1 0 0 1)
         (Planet.name body) = ret [Some ax; Some ay])
  /\ ((exists body, In body (Universe.planets one_body)
         /\ Universe.acceleration_from_planet one_body (state_of 1 0 0 1)
              (Planet.name body) = ret [None; None])
      <-> (exists body, In body (Universe.planets one_body)
             /\ Planet.position body = [1; 0])).
Proof.
  destruct (division_by_zero_at_centers one_body 1 0 [Some 0; Some 1])
    as [Hoff [Hiff _]]; try apply one_body_well_formed.
  split; [exact Hoff | exact Hiff].
Defined.

(** ** The dynamics *)

Lemma num_add_assoc (a b c : num) :
  num_lift2 Rplus (num_lift2 Rplus a b) c
  = num_lift2 Rplus a (num_lift2 Rplus b c).
Proof.
  destruct a, b, c; unfold num_lift2; try reflexivity. f_equal. ring.
Qed.

Lemma num_add_0_r (a : num) : num_lift2 Rplus a (Some 0) = a.
Proof.
  destruct a; unfold num_lift2; [f_equal; ring | reflexivity].
Qed.

(** The loop over the planets adds the gravity-field sum to the
    accumulator it starts from. *)
Lemma gravity_loop u x y rest bodies :
  (forall body, In body bodies ->
     Universe.find_planet (Universe.planets u) (Planet.name body) = Some body
     /\ length (Planet.position body) = 2%nat) ->
  forall ax ay : num,
    for_loop bodies
      (fun a planet =>
         g <- Universe.acceleration_from_planet u (Some x :: Some y :: rest)
                (Planet.name planet) ;;
         vadd a g)
      [ax; ay]
    = ret [num_lift2 Rplus ax (fst (gravity_field (Universe.G u) bodies x y));
           num_lift2 Rplus ay (snd (gravity_field (Universe.G u) bodies x y))].
Proof.
  induction bodies as [| body bodies IH]; intros Hall ax ay.
  - simpl. now rewrite !num_add_0_r.
  - destruct (Hall body (or_introl eq_refl)) as [Hfind Hlen].
    destruct (Planet.position body) as [| px [| py [| ? ?]]] eqn:Hpos;
      try discriminate Hlen.
    cbn [for_loop].
    rewrite (acceleration_from_planet_num _ _ _ _ _ x y rest Hfind Hpos).
    rewrite (body_acceleration_gravity_term _ _ _ _ _ _ Hpos).
    rewrite bind_ret_l. cbn [vadd elementwise length Nat.eqb].
    rewrite bind_ret_l. unfold zip_with. cbn [combine map fst snd].
    rewrite IH by (intros b Hb; apply Hall; now right).
    cbn [gravity_field fold_right fst snd].
    fold (gravity_field (Universe.G u) bodies x y).
    cbn [s_add num_Scalar].
    now rewrite !num_add_assoc.
Qed.

Lemma rocket_continuous_dynamics_num u x y vx vy ux uy :
  distinct_names u -> planar u ->
  Universe.rocket_continuous_dynamics u (state_of x y vx vy) [Some ux; Some uy]
  = ret [Some vx; Some vy;
         num_lift2 Rplus
           (num_div (Some ux) (Some (Rocket.mass (Universe.rocket u))))
           (fst (gravity_field (Universe.G u) (Universe.planets u) x y));
         num_lift2 Rplus
           (num_div (Some uy) (Some (Rocket.mass (Universe.rocket u))))
           (snd (gravity_field (Universe.G u) (Universe.planets u) x y))].
Proof.
  intros Hnames Hplanar. unfold Universe.rocket_continuous_dynamics, state_of.
  cbn [divide_by map].
  rewrite gravity_loop.
  - now rewrite bind_ret_l.
  - intros body Hin. split; [now apply find_planet_distinct | now apply Hplanar].
Qed.

(** C1. The discrete-dynamics residual is
    [state_next - state - time_step * dynamics(state_next, thrust)], a
    vector of four entries, where the dynamics has the velocity of
    [state_next] in its position slot and, in its velocity slot, the
    thrust divided by the mass of the rocket plus the gravity-field sum
    over the registered bodies at the position of [state_next].  The
    bodies have distinct names and planar positions. *)
Theorem discrete_dynamics_residual (u : Universe.t)
  (x y vx vy x' y' vx' vy' ux uy h : R) :
  distinct_names u -> planar u ->
  let g := gravity_field (Universe.G u) (Universe.planets u) x' y' in
  let m := Rocket.mass (Universe.rocket u) in
  Universe.rocket_discrete_dynamics u (state_of x y vx vy)
    (state_of x' y' vx' vy') [Some ux; Some uy] h
  = ret [Some (x' - x - h * vx');
         Some (y' - y - h * vy');
         (Some (vx' - vx)%R - Some h * (Some ux / Some m + fst g))%num;
         (Some (vy' - vy)%R - Some h * (Some uy / Some m + snd g))%num].
Proof.
  intros Hnames Hplanar g m. unfold Universe.rocket_discrete_dynamics.
  rewrite (rocket_continuous_dynamics_num _ _ _ _ _ _ _ Hnames Hplanar).
  rewrite bind_ret_l. reflexivity.
Qed.

Lemma discrete_dynamics_residual_witness :
  Universe.rocket_discrete_dynamics one_body (state_of 1 0 0 1)
    (state_of 1 1 0 1) [Some 0; Some 0] 1
  = ret [Some (1 - 1 - 1 * 0);
         Some (1 - 0 - 1 * 1);
         (Some (0 - 0)%R
          - Some 1 * (Some 0 / Some 1
                      + fst (gravity_field 1 (Universe.planets one_body) 1 1)))%num;
         (Some (1 - 1)%R
          - Some 1 * (Some 0 / Some 1
                      + snd (gravity_field 1 (Universe.planets one_body) 1 1)))%num].
Proof.
  apply (discrete_dynamics_residual one_body 1 0 0 1 1 1 0 1 0 0 1);
    apply one_body_well_formed.
Defined.

(** ** The methods on arrays of any scalars

    With the planets found and planar, the methods return arrays of the
    documented dimensions whatever the scalars are; this is what the
    cells of the notebook rely on when they call them on variables. *)
Section AnyScalar.
Context {T : Type} `{Scalar T}.

Lemma position_wrt_planet_any u name body px py (a b : T) rest :
  Universe.find_planet (Universe.planets u) name = Some body ->
  Planet.position body = [px; py] ->
  Universe.position_wrt_planet u (a :: b :: rest) name
  = ret [s_sub a (s_const px); s_sub b (s_const py)].
Proof.
  intros Hfind Hpos. unfold Universe.position_wrt_planet.
  rewrite (get_planet_found _ _ _ Hfind), bind_ret_l. simpl attr.
  rewrite bind_ret_l, Hpos. reflexivity.
Qed.

Lemma acceleration_from_planet_any u name body px py (a b : T) rest :
  Universe.find_planet (Universe.planets u) name = Some body ->
  Planet.position body = [px; py] ->
  exists g1 g2,
    Universe.acceleration_from_planet u (a :: b :: rest) name = ret [g1; g2].
Proof.
  intros Hfind Hpos. unfold Universe.acceleration_from_planet.
  rewrite (position_wrt_planet_any _ _ _ _ _ _ _ _ Hfind Hpos), bind_ret_l.
  unfold dot. cbn [length Nat.eqb]. rewrite bind_ret_l.
  rewrite (get_planet_found _ _ _ Hfind), bind_ret_l. simpl attr.
  rewrite bind_ret_l. unfold scale. cbn [map]. eauto.
Qed.

Lemma find_planet_registered planets planet :
  In planet planets ->
  exists body,
    Universe.find_planet planets (Planet.name planet) = Some body
    /\ In body planets.
Proof.
  intros Hin.
  destruct (Universe.find_planet planets (Planet.name planet)) as [body |] eqn:E.
  - exists body. split; [reflexivity |]. now apply find_planet_some in E.
  - exfalso. rewrite find_planet_none in E. now apply (E planet).
Qed.

Lemma planar_position u body :
  planar u -> In body (Universe.planets u) ->
  exists px py, Planet.position body = [px; py].
Proof.
  intros Hplanar Hin. pose proof (Hplanar _ Hin) as Hlen.
  destruct (Planet.position body) as [| px [| py [| ? ?]]];
    try discriminate Hlen.
  eauto.
Qed.

Lemma gravity_loop_any u (a b : T) rest bodies :
  planar u ->
  (forall body, In body bodies -> In body (Universe.planets u)) ->
  forall a1 a2 : T,
  exists a1' a2',
    for_loop bodies
      (fun acc planet =>
         g <- Universe.acceleration_from_planet u (a :: b :: rest)
                (Planet.name planet) ;;
         vadd acc g)
      [a1; a2]
    = ret [a1'; a2'].
Proof.
  intros Hplanar. induction bodies as [| body bodies IH]; intros Hsub a1 a2.
  - simpl. eauto.
  - destruct (find_planet_registered (Universe.planets u) body)
      as [found [Hfind Hin]]; [apply Hsub; now left |].
    destruct (planar_position u found Hplanar Hin) as [px [py Hpos]].
    destruct (acceleration_from_planet_any u _ _ _ _ a b rest Hfind Hpos)
      as [g1 [g2 Hg]].
    cbn [for_loop]. rewrite Hg, bind_ret_l.
    cbn [vadd elementwise length Nat.eqb]. rewrite bind_ret_l.
    unfold zip_with. cbn [combine map fst snd].
    apply IH. intros b' Hb'. apply Hsub. now right.
Qed.

Lemma rocket_discrete_dynamics_any u (s0 s1 s2 s3 n0 n1 n2 n3 u0 u1 : T) h :
  planar u ->
  exists r0 r1 r2 r3,
    Universe.rocket_discrete_dynamics u [s0; s1; s2; s3] [n0; n1; n2; n3]
      [u0; u1] h
    = ret [r0; r1; r2; r3].
Proof.
  intros Hplanar.
  unfold Universe.rocket_discrete_dynamics, Universe.rocket_continuous_dynamics.
  cbn [divide_by map].
  destruct (gravity_loop_any u n0 n1 [n2; n3] (Universe.planets u) Hplanar
              (fun _ Hb => Hb)
              (s_div u0 (s_const (Rocket.mass (Universe.rocket u))))
              (s_div u1 (s_const (Rocket.mass (Universe.rocket u)))))
    as [a1 [a2 Hloop]].
  rewrite Hloop, !bind_ret_l. cbn [skipn app].
  cbn [vsub elementwise length Nat.eqb]. rewrite bind_ret_l.
  unfold zip_with, scale. cbn [combine map fst snd].
  do 4 eexists. reflexivity.
Qed.

Lemma constraint_state_to_orbit_any u name body px py (s0 s1 s2 s3 : T) :
  Universe.find_planet (Universe.planets u) name = Some body ->
  Planet.position body = [px; py] ->
  exists r0 r1 r2,
    Universe.constraint_state_to_orbit u [s0; s1; s2; s3] name
    = ret [r0; r1; r2].
Proof.
  intros Hfind Hpos. unfold Universe.constraint_state_to_orbit.
  rewrite (get_planet_found _ _ _ Hfind), bind_ret_l. simpl attr.
  rewrite bind_ret_l, Hpos.
  destruct (acceleration_from_planet_any u _ _ _ _ s0 s1 [s2; s3] Hfind Hpos)
    as [g1 [g2 Hg]].
  rewrite Hg. do 3 eexists. reflexivity.
Qed.

End AnyScalar.

(** ** Loops and rows of variables *)

Lemma for_loop_ret {A B : Type} (xs : list A) (body : B -> A -> M B)
  (step : B -> A -> B) :
  (forall acc x, In x xs -> body acc x = ret (step acc x)) ->
  forall acc, for_loop xs body acc = ret (fold_left step xs acc).
Proof.
  induction xs as [| x xs IH]; intros Hbody acc; [reflexivity |].
  cbn [for_loop fold_left]. rewrite Hbody by now left.
  rewrite bind_ret_l. apply IH. intros acc' y Hy. apply Hbody. now right.
Qed.

Lemma add_constraints_nil prog : add_constraints prog [] = prog.
Proof.
  destruct prog. unfold add_constraints. simpl. now rewrite app_nil_r.
Qed.

Lemma add_constraints_app prog fs gs :
  add_constraints (add_constraints prog fs) gs = add_constraints prog (fs ++ gs).
Proof.
  unfold add_constraints. simpl. now rewrite app_assoc.
Qed.

Lemma fold_AddConstraint {A : Type} (f : A -> Formula) (xs : list A) prog :
  fold_left (fun prog x => MathematicalProgram.AddConstraint prog (f x)) xs prog
  = add_constraints prog (map f xs).
Proof.
  revert prog. induction xs as [| x xs IH]; intros prog.
  - simpl. now rewrite add_constraints_nil.
  - cbn [fold_left map]. rewrite IH.
    change (MathematicalProgram.AddConstraint prog (f x))
      with (add_constraints prog [f x]).
    now rewrite add_constraints_app.
Qed.

Lemma add_residuals_equalities prog residuals :
  add_residuals prog residuals
  = add_constraints prog (map (fun r => FEq r (EConst 0)) residuals).
Proof. apply fold_AddConstraint. Qed.

Lemma index_map_seq {A : Type} (f : nat -> A) (n i : nat) :
  (i < n)%nat -> index (map f (seq 0 n)) i = ret (f i).
Proof.
  intros Hi. unfold index. rewrite nth_error_map.
  rewrite (nth_error_nth' _ 0%nat) by (now rewrite length_seq).
  now rewrite seq_nth.
Qed.

Lemma row_state time_steps t :
  (t <= time_steps)%nat ->
  row (variable_matrix "state" (time_steps + 1) 4) t
  = ret [state_entry t 0; state_entry t 1; state_entry t 2; state_entry t 3].
Proof.
  intros Ht. unfold row, variable_matrix.
  rewrite index_map_seq by lia. now rewrite bind_ret_l.
Qed.

Lemma row_thrust time_steps t :
  (t < time_steps)%nat ->
  row (variable_matrix "thrust" time_steps 2) t
  = ret [thrust_entry t 0; thrust_entry t 1].
Proof.
  intros Ht. unfold row, variable_matrix.
  rewrite index_map_seq by lia. now rewrite bind_ret_l.
Qed.

(** ** What each cell adds to the program *)

Lemma thrust_limits_adds rocket time_steps prog :
  thrust_limits rocket time_steps (variable_matrix "thrust" time_steps 2) prog
  = ret (add_constraints prog
           (map (thrust_limit_constraint rocket) (seq 0 time_steps))).
Proof.
  unfold thrust_limits.
  rewrite (for_loop_ret _ _
             (fun prog t => MathematicalProgram.AddConstraint prog
                              (thrust_limit_constraint rocket t))).
  - now rewrite fold_AddConstraint.
  - intros acc t Ht. apply in_seq in Ht.
    rewrite row_thrust by lia. now rewrite bind_ret_l.
Qed.

Lemma velocity_limits_adds rocket time_steps prog :
  velocity_limits rocket time_steps
    (variable_matrix "state" (time_steps + 1) 4) prog
  = ret (add_constraints prog
           (map (velocity_limit_constraint rocket) (seq 0 time_steps))).
Proof.
  unfold velocity_limits.
  rewrite (for_loop_ret _ _
             (fun prog t => MathematicalProgram.AddConstraint prog
                              (velocity_limit_constraint rocket t))).
  - now rewrite fold_AddConstraint.
  - intros acc t Ht. apply in_seq in Ht.
    rewrite row_state by lia. now rewrite bind_ret_l.
Qed.

Lemma avoid_asteroids_adds universe asteroids time_steps prog :
  globals_ready universe asteroids ->
  avoid_asteroids universe asteroids time_steps
    (variable_matrix "state" (time_steps + 1) 4) prog
  = ret (add_constraints prog (keep_out_constraints asteroids time_steps)).
Proof.
  intros [Hplanar [_ [_ Hreg]]]. unfold avoid_asteroids, keep_out_constraints.
  rewrite (for_loop_ret _ _
             (fun prog t =>
                add_constraints prog
                  (map (fun asteroid => keep_out_constraint asteroid t)
                       asteroids))).
  - generalize (seq 0 (time_steps + 1)). intros ts. revert prog.
    induction ts as [| t ts IH]; intros prog.
    + simpl. now rewrite add_constraints_nil.
    + cbn [fold_left flat_map]. now rewrite IH, add_constraints_app.
  - intros acc t Ht. apply in_seq in Ht.
    rewrite (for_loop_ret _ _
               (fun prog asteroid =>
                  MathematicalProgram.AddConstraint prog
                    (keep_out_constraint asteroid t))).
    + now rewrite fold_AddConstraint.
    + intros acc' asteroid Hin. rewrite row_state by lia.
      rewrite bind_ret_l.
      pose proof (Hreg _ Hin) as Hfind.
      destruct (find_planet_some _ _ _ Hfind) as [Hin' _].
      destruct (planar_position universe asteroid Hplanar Hin')
        as [px [py Hpos]].
      rewrite (position_wrt_planet_any _ _ _ _ _ _ _ _ Hfind Hpos).
      rewrite bind_ret_l. unfold keep_out_constraint. rewrite Hpos.
      reflexivity.
Qed.

Lemma fuel_cost_builds time_interval time_steps :
  fuel_cost time_interval time_steps (variable_matrix "thrust" time_steps 2)
  = ret (fuel_cost_expression time_interval time_steps).
Proof.
  unfold fuel_cost, fuel_cost_expression.
  apply for_loop_ret. intros acc t Ht. apply in_seq in Ht.
  rewrite row_thrust by lia. now rewrite bind_ret_l.
Qed.

Lemma Forall_equalities (residuals : list Expression) :
  forallb is_equality (map (fun r => FEq r (EConst 0)) residuals) = true.
Proof. induction residuals; simpl; auto. Qed.

Lemma orbit_constraints_add universe name body time_steps t prog :
  planar universe ->
  Universe.find_planet (Universe.planets universe) name = Some body ->
  (t <= time_steps)%nat ->
  exists eqs,
    length eqs = 3%nat /\ forallb is_equality eqs = true
    /\ (s <- row (variable_matrix "state" (time_steps + 1) 4) t ;;
        residuals <- Universe.constraint_state_to_orbit universe s name ;;
        ret (add_residuals prog residuals))
       = ret (add_constraints prog eqs).
Proof.
  intros Hplanar Hfind Ht.
  destruct (find_planet_some _ _ _ Hfind) as [Hin _].
  destruct (planar_position universe body Hplanar Hin) as [px [py Hpos]].
  rewrite row_state by exact Ht. rewrite bind_ret_l.
  destruct (constraint_state_to_orbit_any universe name body px py
              (state_entry t 0) (state_entry t 1) (state_entry t 2)
              (state_entry t 3) Hfind Hpos) as [r0 [r1 [r2 Hres]]].
  rewrite Hres, bind_ret_l, add_residuals_equalities.
  eexists. split; [| split; [| reflexivity]]; reflexivity.
Qed.

Lemma variable_matrix_rows name rows cols :
  length (variable_matrix name rows cols) = rows.
Proof. unfold variable_matrix. now rewrite length_map, length_seq. Qed.

Lemma discretized_dynamics_adds universe time_interval time_steps prog :
  planar universe ->
  exists eqs,
    length eqs = (4 * time_steps)%nat /\ forallb is_equality eqs = true
    /\ discretized_dynamics universe time_interval time_steps
         (variable_matrix "state" (time_steps + 1) 4)
         (variable_matrix "thrust" time_steps 2) prog
       = ret (add_constraints prog eqs).
Proof.
  intros Hplanar. unfold discretized_dynamics.
  assert (Hloop : forall ts, (forall t, In t ts -> (t < time_steps)%nat) ->
            forall prog, exists eqs,
              length eqs = (4 * length ts)%nat
              /\ forallb is_equality eqs = true
              /\ for_loop ts
                   (fun prog t =>
                      s <- row (variable_matrix "state" (time_steps + 1) 4) t ;;
                      s_next <-
                        row (variable_matrix "state" (time_steps + 1) 4) (t + 1) ;;
                      u <- row (variable_matrix "thrust" time_steps 2) t ;;
                      residuals <-
                        Universe.rocket_discrete_dynamics universe s s_next u
                          time_interval ;;
                      ret (add_residuals prog residuals))
                   prog
                 = ret (add_constraints prog eqs)).
  { induction ts as [| t ts IH]; intros Hts prog'.
    - exists []. repeat split. simpl. now rewrite add_constraints_nil.
    - assert (Ht : (t < time_steps)%nat) by (apply Hts; now left).
      cbn [for_loop]. rewrite !row_state by lia.
      rewrite row_thrust by lia. rewrite !bind_ret_l.
      destruct (rocket_discrete_dynamics_any universe
                  (state_entry t 0) (state_entry t 1) (state_entry t 2)
                  (state_entry t 3) (state_entry (t + 1) 0)
                  (state_entry (t + 1) 1) (state_entry (t + 1) 2)
                  (state_entry (t + 1) 3) (thrust_entry t 0)
                  (thrust_entry t 1) time_interval Hplanar)
        as [r0 [r1 [r2 [r3 Hres]]]].
      rewrite Hres, !bind_ret_l, add_residuals_equalities.
      destruct (IH (fun t' Ht' => Hts t' (or_intror Ht'))
                  (add_constraints prog'
                     (map (fun r => FEq r (EConst 0)) [r0; r1; r2; r3])))
        as [eqs [Hlen [Heq Hrun]]].
      rewrite Hrun, add_constraints_app.
      exists (map (fun r => FEq r (EConst 0)) [r0; r1; r2; r3] ++ eqs).
      split; [| split].
      + rewrite length_app, Hlen. cbn [length map]. lia.
      + rewrite forallb_app, Heq. reflexivity.
      + reflexivity. }
  destruct (Hloop (seq 0 time_steps)
              (fun t Ht => proj2 (proj1 (in_seq _ _ _) Ht)) prog)
    as [eqs [Hlen [Heq Hrun]]].
  exists eqs. rewrite length_seq in Hlen. auto.
Qed.

(** The cells run to the end and assemble: [6 + 4 * time_steps] equality
    constraints, then the thrust limits, the velocity limits and the
    keep-out constraints, and one cost. *)
Lemma trajopt_assembles universe rocket asteroids time_interval time_steps :
  globals_ready universe asteroids ->
  exists eqs,
    length eqs = (6 + 4 * time_steps)%nat
    /\ forallb is_equality eqs = true
    /\ trajopt universe rocket asteroids time_interval time_steps
       = ret (assembled_program rocket asteroids time_interval time_steps eqs,
              variable_matrix "state" (time_steps + 1) 4,
              variable_matrix "thrust" time_steps 2).
Proof.
  intros Hready. pose proof Hready as [Hplanar [[earth He] [[mars Hm] _]]].
  unfold trajopt, MathematicalProgram.NewContinuousVariables.
  cbv zeta. cbn [MathematicalProgram.decision_variables
                   MathematicalProgram.constraints MathematicalProgram.costs
                   MathematicalProgram.new app].
  fold (variable_matrix "state" (time_steps + 1) 4).
  fold (variable_matrix "thrust" time_steps 2).
  unfold initial_orbit_constraints, terminal_orbit_constraints.
  rewrite variable_matrix_rows.
  replace (time_steps + 1 - 1)%nat with time_steps by lia.
  match goal with
  | |- context [bind (bind (row _ 0) _) ?k] =>
      destruct (orbit_constraints_add universe "Earth" earth time_steps 0
                  {| MathematicalProgram.decision_variables :=
                       concat (variable_matrix "state" (time_steps + 1) 4)
                       ++ concat (variable_matrix "thrust" time_steps 2);
                     MathematicalProgram.constraints := [];
                     MathematicalProgram.costs := [] |}
                  Hplanar He (Nat.le_0_l _))
        as [eqs0 [Hlen0 [Heq0 Hrun0]]]
  end.
  rewrite Hrun0, bind_ret_l.
  destruct (orbit_constraints_add universe "Mars" mars time_steps time_steps
              (add_constraints
                 {| MathematicalProgram.decision_variables :=
                      concat (variable_matrix "state" (time_steps + 1) 4)
                      ++ concat (variable_matrix "thrust" time_steps 2);
                    MathematicalProgram.constraints := [];
                    MathematicalProgram.costs := [] |} eqs0)
              Hplanar Hm (Nat.le_refl _))
    as [eqs1 [Hlen1 [Heq1 Hrun1]]].
  rewrite Hrun1, bind_ret_l, add_constraints_app.
  destruct (discretized_dynamics_adds universe time_interval time_steps
              (add_constraints
                 {| MathematicalProgram.decision_variables :=
                      concat (variable_matrix "state" (time_steps + 1) 4)
                      ++ concat (variable_matrix "thrust" time_steps 2);
                    MathematicalProgram.constraints := [];
                    MathematicalProgram.costs := [] |} (eqs0 ++ eqs1))
              Hplanar)
    as [eqs2 [Hlen2 [Heq2 Hrun2]]].
  rewrite Hrun2, bind_ret_l, add_constraints_app.
  rewrite thrust_limits_adds, bind_ret_l, add_constraints_app.
  rewrite velocity_limits_adds, bind_ret_l, add_constraints_app.
  rewrite (avoid_asteroids_adds _ _ _ _ Hready), bind_ret_l,
    add_constraints_app.
  rewrite fuel_cost_builds, bind_ret_l.
  exists ((eqs0 ++ eqs1) ++ eqs2). split; [| split].
  - rewrite !length_app, Hlen0, Hlen1, Hlen2. lia.
  - now rewrite !forallb_app, Heq0, Heq1, Heq2.
  - unfold assembled_program, add_constraints, MathematicalProgram.AddCost.
    cbn [MathematicalProgram.decision_variables
           MathematicalProgram.constraints MathematicalProgram.costs app].
    now rewrite <- !app_assoc.
Qed.

Lemma keep_out_constraints_length asteroids time_steps :
  length (keep_out_constraints asteroids time_steps)
  = ((time_steps + 1) * length asteroids)%nat.
Proof.
  unfold keep_out_constraints.
  assert (Hts : forall ts,
            length (flat_map
                      (fun t => map (fun a => keep_out_constraint a t) asteroids)
                      ts)
            = (length ts * length asteroids)%nat).
  { induction ts as [| t ts IH]; [reflexivity |].
    cbn [flat_map length]. rewrite length_app, length_map, IH. lia. }
  now rewrite Hts, length_seq.
Qed.

Lemma filter_map_all {A B : Type} (f : A -> B) (q : B -> bool) (xs : list A) :
  (forall x, q (f x) = true) -> filter q (map f xs) = map f xs.
Proof.
  intros Hq. induction xs as [| x xs IH]; [reflexivity |].
  simpl. now rewrite Hq, IH.
Qed.

Lemma keep_out_constraints_lower_bounds asteroids time_steps :
  filter is_lower_bound (keep_out_constraints asteroids time_steps)
  = keep_out_constraints asteroids time_steps.
Proof.
  unfold keep_out_constraints. generalize (seq 0 (time_steps + 1)).
  intros ts. induction ts as [| t ts IH]; [reflexivity |].
  cbn [flat_map]. rewrite filter_app, IH. f_equal.
  now apply filter_map_all.
Qed.

Lemma filter_none {A : Type} (p q : A -> bool) (xs : list A) :
  forallb p xs = true ->
  (forall x, p x = true -> q x = false) ->
  filter q xs = [].
Proof.
  intros Hall Hpq. induction xs as [| x xs IH]; [reflexivity |].
  simpl in Hall. apply andb_prop in Hall as [Hx Hxs].
  simpl. rewrite (Hpq x Hx). auto.
Qed.

Lemma filter_map_none {A B : Type} (f : A -> B) (q : B -> bool) (xs : list A) :
  (forall x, q (f x) = false) -> filter q (map f xs) = [].
Proof.
  intros Hq. induction xs as [| x xs IH]; [reflexivity |].
  simpl. now rewrite Hq.
Qed.

Lemma assembled_lower_bounds rocket asteroids time_interval time_steps eqs :
  forallb is_equality eqs = true ->
  filter is_lower_bound
    (MathematicalProgram.constraints
       (assembled_program rocket asteroids time_interval time_steps eqs))
  = keep_out_constraints asteroids time_steps.
Proof.
  intros Heqs. unfold assembled_program.
  cbn [MathematicalProgram.constraints]. rewrite !filter_app.
  rewrite (filter_none is_equality is_lower_bound eqs Heqs)
    by (now intros [? ? | ? ? | ? ?]).
  rewrite !filter_map_none by reflexivity.
  now rewrite keep_out_constraints_lower_bounds.
Qed.

Lemma keep_out_constraint_meaning asteroid t env :
  exists distance,
    keep_out_constraint asteroid t
    = FGeq distance (EConst (Planet.orbit asteroid))
    /\ eval env distance
       = Some (sqrt ((env (mkVariable "state" t 0)
                      - nth 0 (Planet.position asteroid) 0)
                     * (env (mkVariable "state" t 0)
                        - nth 0 (Planet.position asteroid) 0)
                     + (env (mkVariable "state" t 1)
                        - nth 1 (Planet.position asteroid) 0)
                       * (env (mkVariable "state" t 1)
                          - nth 1 (Planet.position asteroid) 0))).
Proof.
  eexists. split; [reflexivity |]. cbn [eval state_entry].
  autorewrite with num_eval. reflexivity.
Qed.

(** ** The keep-out constraints *)

(** C5. The assembled program has, for every state (indices [0] to
    [time_steps]) and every asteroid, one constraint that the Euclidean
    distance from the position of that state to the center of the
    asteroid is at least the [orbit] of the asteroid; these are all its
    lower-bound constraints, and there are
    [(time_steps + 1) * (number of asteroids)] of them. *)
Theorem keep_out_constraint_per_state_and_asteroid
  (universe : Universe.t) (rocket : Rocket.t) (asteroids : list Planet.t)
  (time_interval : R) (time_steps : nat) :
  globals_ready universe asteroids ->
  exists prog state thrust,
    trajopt universe rocket asteroids time_interval time_steps
    = ret (prog, state, thrust)
    /\ length state = (time_steps + 1)%nat
    /\ filter is_lower_bound (MathematicalProgram.constraints prog)
       = flat_map
           (fun t => map (fun asteroid => keep_out_constraint asteroid t)
                         asteroids)
           (seq 0 (time_steps + 1))
    /\ length (filter is_lower_bound (MathematicalProgram.constraints prog))
       = ((time_steps + 1) * length asteroids)%nat
    /\ (forall asteroid t env,
          exists distance,
            keep_out_constraint asteroid t
            = FGeq distance (EConst (Planet.orbit asteroid))
            /\ eval env distance
               = Some (sqrt ((env (mkVariable "state" t 0)
                              - nth 0 (Planet.position asteroid) 0)
                             * (env (mkVariable "state" t 0)
                                - nth 0 (Planet.position asteroid) 0)
                             + (env (mkVariable "state" t 1)
                                - nth 1 (Planet.position asteroid) 0)
                               * (env (mkVariable "state" t 1)
                                  - nth 1 (Planet.position asteroid) 0)))).
Proof.
  intros Hready.
  destruct (trajopt_assembles universe rocket asteroids time_interval
              time_steps Hready) as [eqs [_ [Heqs Hrun]]].
  do 3 eexists. split; [exact Hrun |].
  rewrite (assembled_lower_bounds _ _ _ _ _ Heqs).
  repeat split.
  - apply variable_matrix_rows.
  - apply keep_out_constraints_length.
  - apply keep_out_constraint_meaning.
Qed.

Lemma sample_globals_ready : globals_ready sample_universe [sample_asteroid].
Proof.
  repeat split.
  - intros body [<- | [<- | [<- | []]]]; reflexivity.
  - eexists. reflexivity.
  - eexists. reflexivity.
  - intros asteroid [<- | []]. reflexivity.
Defined.

Lemma keep_out_constraint_per_state_and_asteroid_witness :
  exists prog state thrust,
    trajopt sample_universe sample_rocket [sample_asteroid] (1 / 2) 2
    = ret (prog, state, thrust)
    /\ length state = 3%nat
    /\ filter is_lower_bound (MathematicalProgram.constraints prog)
       = [keep_out_constraint sample_asteroid 0;
          keep_out_constraint sample_asteroid 1;
          keep_out_constraint sample_asteroid 2]
    /\ length (filter is_lower_bound (MathematicalProgram.constraints prog))
       = 3%nat.
Proof.
  destruct (keep_out_constraint_per_state_and_asteroid sample_universe
              sample_rocket [sample_asteroid] (1 / 2) 2 sample_globals_ready)
    as [prog [state [thrust [Hrun [Hrows [Hall [Hcount _]]]]]]].
  exists prog, state, thrust. auto.
Defined.

(** ** The velocity limits *)

(** In the assembled program the states whose velocity is bounded are
    those of index below [time_steps]. *)
Lemma assembled_velocity_bounds rocket asteroids time_interval time_steps
  eqs t :
  forallb is_equality eqs = true ->
  (exists f,
     In f (MathematicalProgram.constraints
             (assembled_program rocket asteroids time_interval time_steps eqs))
     /\ bounds_velocity_of t f)
  <-> (t < time_steps)%nat.
Proof.
  intros Heqs. unfold assembled_program.
  cbn [MathematicalProgram.constraints]. split.
  - intros [f [Hin [limit ->]]].
    rewrite !in_app_iff in Hin. destruct Hin as [Hin | [Hin | [Hin | Hin]]].
    + rewrite forallb_forall in Heqs. apply Heqs in Hin. discriminate Hin.
    + apply in_map_iff in Hin as [t' [Hf _]]. discriminate Hf.
    + apply in_map_iff in Hin as [t' [Hf Ht']].
      inversion Hf; subst t'. now apply in_seq in Ht'.
    + unfold keep_out_constraints in Hin.
      apply in_flat_map in Hin as [t' [_ Hin]].
      apply in_map_iff in Hin as [a [Hf _]]. discriminate Hf.
  - intros Ht. exists (velocity_limit_constraint rocket t). split.
    + rewrite !in_app_iff. right. right. left.
      apply in_map. apply in_seq. lia.
    + now exists (Rocket.velocity_limit rocket).
Qed.

(** C3, on the code. With the [time_steps = 100] of the notebook the
    program has 101 states; each of the states 0 to 99 has its velocity
    bounded by a constraint, and no constraint of the program bounds the
    velocity of the final state, [state[100]]. *)
Theorem velocity_limit_misses_final_state :
  exists prog state thrust,
    trajopt sample_universe sample_rocket [sample_asteroid] (1 / 2) 100
    = ret (prog, state, thrust)
    /\ length state = 101%nat
    /\ (forall t, (t < 100)%nat ->
          exists f, In f (MathematicalProgram.constraints prog)
                    /\ bounds_velocity_of t f)
    /\ (forall f, In f (MathematicalProgram.constraints prog) ->
          ~ bounds_velocity_of 100 f).
Proof.
  destruct (trajopt_assembles sample_universe sample_rocket [sample_asteroid]
              (1 / 2) 100 sample_globals_ready) as [eqs [_ [Heqs Hrun]]].
  do 3 eexists. split; [exact Hrun |]. split; [| split].
  - apply variable_matrix_rows.
  - intros t Ht. now apply assembled_velocity_bounds.
  - intros f Hin Hbound.
    assert (H100 : (100 < 100)%nat)
      by (apply (assembled_velocity_bounds sample_rocket [sample_asteroid]
                   (1 / 2) 100 eqs 100 Heqs); eauto).
    lia.
Qed.

(** ** Solver failure *)

(** C7. When the solver reports failure, the cell ends in
    [AssertionError], an outcome distinct from a normal return: it prints
    no fuel report and returns no thrust or state sequence; the values of
    the variables are read only past the assertion. *)
Theorem solver_failure_is_surfaced
  (solver : MathematicalProgram.t -> MathematicalProgramResult.t)
  (prog : MathematicalProgram.t)
  (state thrust : list (list DecisionVariable)) (time_interval : R) :
  MathematicalProgramResult.is_success (solver prog) = false ->
  solve_and_report solver prog state thrust time_interval
  = ([], inl AssertionError)
  /\ (forall solution,
        ~ returns (solve_and_report solver prog state thrust time_interval)
            solution).
Proof.
  intros Hfail. unfold solve_and_report. rewrite Hfail.
  split; [reflexivity |]. intros solution Hret. discriminate Hret.
Qed.

Lemma solver_failure_is_surfaced_witness :
  solve_and_report failing_solver MathematicalProgram.new
    (variable_matrix "state" 3 4) (variable_matrix "thrust" 2 2) (1 / 2)
  = ([], inl AssertionError)
  /\ (forall solution,
        ~ returns (solve_and_report failing_solver MathematicalProgram.new
                     (variable_matrix "state" 3 4)
                     (variable_matrix "thrust" 2 2) (1 / 2))
            solution).
Proof.
  apply (solver_failure_is_surfaced failing_solver MathematicalProgram.new).
  reflexivity.
Defined.

(** ** The objective and the reported fuel consumption *)

Lemma fold_left_sum (g : nat -> R) (ts : list nat) (a : R) :
  fold_left (fun acc t => acc + g t) ts a = a + sum_over g ts.
Proof.
  revert a. induction ts as [| t ts IH]; intros a; simpl.
  - ring.
  - rewrite IH. ring.
Qed.

Lemma sum_over_scale (h : R) (g : nat -> R) (ts : list nat) :
  sum_over (fun t => h * g t) ts = h * sum_over g ts.
Proof.
  induction ts as [| t ts IH]; simpl; [ring |]. rewrite IH. ring.
Qed.

Lemma eval_thrust_squared env t :
  eval env (thrust_squared t) = Some (thrust_energy env t).
Proof. reflexivity. Qed.

Lemma eval_fuel_cost_loop env h ts cost a :
  eval env cost = Some a ->
  eval env
    (fold_left
       (fun cost t => EAdd cost (EMul (EConst h) (thrust_squared t))) ts cost)
  = Some (fold_left (fun acc t => acc + h * thrust_energy env t) ts a).
Proof.
  revert cost a. induction ts as [| t ts IH]; intros cost a Hcost.
  - exact Hcost.
  - cbn [fold_left]. apply IH. cbn [eval].
    rewrite Hcost, eval_thrust_squared. reflexivity.
Qed.

Lemma fuel_consumption_loop result ts a :
  for_loop
    (map (map (fun v => Some (MathematicalProgramResult.value result v)))
         (map (fun i => map (fun j => mkVariable "thrust" i j) (seq 0 2)) ts))
    (fun acc t => sq <- dot t t ;; ret (s_add acc sq))
    (Some a)
  = ret (Some (fold_left
                 (fun acc t =>
                    acc + thrust_energy (MathematicalProgramResult.value result) t)
                 ts a)).
Proof.
  revert a. induction ts as [| t ts IH]; intros a; [reflexivity |].
  cbn [map for_loop seq]. unfold dot at 1. cbn [length Nat.eqb].
  rewrite !bind_ret_l. unfold zip_with. cbn [combine map fst snd sum_products
                                              fold_left s_mul s_add num_Scalar].
  autorewrite with num_eval. apply IH.
Qed.

(** C8. At any values of the thrust variables, the cost expression the
    cells hand to [AddCost] and [fuel_consumption] applied to those
    values give the same number, [h] times the sum over the time steps
    of [thrust_t . thrust_t]; so the fuel consumption reported for a
    solution is the objective at the thrust sequence of that solution. *)
Theorem fuel_cost_is_fuel_consumption (time_interval : R) (time_steps : nat)
  (result : MathematicalProgramResult.t) :
  let thrust := variable_matrix "thrust" time_steps 2 in
  let env := MathematicalProgramResult.value result in
  let total :=
    time_interval * sum_over (thrust_energy env) (seq 0 time_steps) in
  exists cost,
    fuel_cost time_interval time_steps thrust = ret cost
    /\ length thrust = time_steps
    /\ eval env cost = Some total
    /\ fuel_consumption (MathematicalProgramResult.GetSolution result thrust)
         time_interval
       = ret (Some total).
Proof.
  intros thrust env total. exists (fuel_cost_expression time_interval time_steps).
  split; [apply fuel_cost_builds |]. split; [apply variable_matrix_rows |].
  split.
  - unfold fuel_cost_expression.
    rewrite (eval_fuel_cost_loop env time_interval _ (EConst 0) 0 eq_refl).
    f_equal. rewrite (fold_left_sum (fun t => time_interval * thrust_energy env t)).
    rewrite sum_over_scale. unfold total. ring.
  - unfold fuel_consumption, MathematicalProgramResult.GetSolution, thrust,
      variable_matrix.
    change (@s_const num num_Scalar 0) with (Some 0).
    rewrite fuel_consumption_loop, bind_ret_l.
    cbn [s_mul s_const num_Scalar]. autorewrite with num_eval.
    rewrite (fold_left_sum (thrust_energy env)). unfold total.
    do 2 f_equal. ring.
Qed.

(** ** Construction checks shapes, not signs *)

Lemma unit_converter_negative q x power :
  x < 0 -> unit_converter q x power < 0.
Proof.
  intros Hx.
  assert (Hdiv : forall b, 0 < b -> x / powerRZ b power < 0).
  { intros b Hb. pose proof (powerRZ_lt b power Hb) as Hpos.
    unfold Rdiv. apply Rinv_0_lt_compat in Hpos. nra. }
  destruct q; unfold unit_converter; apply Hdiv; lra.
Qed.

Lemma convert_units_negative units x :
  x < 0 -> convert_units units x < 0.
Proof.
  unfold convert_units. revert x.
  induction units as [| [q power] units IH]; intros x Hx; [exact Hx |].
  cbn [fold_left]. apply IH. now apply unit_converter_negative.
Qed.

Lemma unit_converter_nonzero q x power :
  x <> 0 -> unit_converter q x power <> 0.
Proof.
  intros Hx.
  assert (Hdiv : forall b, 0 < b -> x / powerRZ b power <> 0).
  { intros b Hb. pose proof (powerRZ_lt b power Hb) as Hpos.
    unfold Rdiv. apply Rmult_integral_contrapositive_currified;
      [exact Hx | apply Rinv_neq_0_compat; lra]. }
  destruct q; unfold unit_converter; apply Hdiv; lra.
Qed.

Lemma returns_not_raises {A : Type} (m : M A) (a : A) :
  m = ret a -> ~ raises m.
Proof. intros -> [e He]. discriminate He. Qed.

(** The subtraction [state[:2] - planet.position] has no common shape
    when the position has neither one entry nor two. *)
Lemma constraint_state_to_orbit_misshapen {T : Type} `{Scalar T}
  (u : Universe.t) (name : string) (body : Planet.t) (s0 s1 s2 s3 : T) :
  Universe.find_planet (Universe.planets u) name = Some body ->
  length (Planet.position body) <> 1%nat ->
  length (Planet.position body) <> 2%nat ->
  Universe.constraint_state_to_orbit u [s0; s1; s2; s3] name
  = raise ValueError.
Proof.
  intros Hfind H1 H2. unfold Universe.constraint_state_to_orbit.
  rewrite (get_planet_found _ _ _ Hfind), bind_ret_l. simpl attr.
  rewrite bind_ret_l.
  destruct (Planet.position body) as [| px [| py [| pz rest]]];
    try (exfalso; apply H1; reflexivity);
    try (exfalso; apply H2; reflexivity); reflexivity.
Qed.

Lemma trajopt_misshapen_earth universe rocket asteroids time_interval
  time_steps earth :
  Universe.find_planet (Universe.planets universe) "Earth" = Some earth ->
  length (Planet.position earth) <> 1%nat ->
  length (Planet.position earth) <> 2%nat ->
  trajopt universe rocket asteroids time_interval time_steps
  = raise ValueError.
Proof.
  intros Hfind H1 H2.
  unfold trajopt, MathematicalProgram.NewContinuousVariables. cbv zeta.
  fold (variable_matrix "state" (time_steps + 1) 4).
  unfold initial_orbit_constraints.
  rewrite row_state by lia. rewrite bind_ret_l.
  rewrite (constraint_state_to_orbit_misshapen _ _ _ _ _ _ _ Hfind H1 H2).
  reflexivity.
Qed.

(** C6, amended. Of the malformed inputs, the construction rejects
    mismatched shapes, and these through numpy alone: when the position
    of ['Earth'] has neither one entry nor two, the first cell that adds
    constraints raises [ValueError], and no program is returned.  Signs
    are not checked.  For any real mass, thrust limit and velocity limit,
    zero and negative ones included, the [Rocket] constructor returns the
    rocket with the three values in the scaled units, and the [Universe]
    constructor returns the universe of that rocket and the given
    planets, whatever their masses.  For a rocket whose mass is not zero,
    a positive time interval and at least one time step, and planets that
    are planar and hold an ['Earth'], a ['Mars'] and the asteroids, the
    cells assemble the program without raising, negative mass and
    negative limits included. *)
Theorem construction_rejects_shapes_not_signs
  (mass thrust_limit velocity_limit : R) (planets asteroids : list Planet.t)
  (time_interval : R) (time_steps : nat) :
  exists rocket universe,
    Rocket.init mass thrust_limit velocity_limit = ret rocket
    /\ Rocket.mass rocket = unit_converter Qmass mass 1
    /\ Rocket.thrust_limit rocket
       = convert_units Rocket.thrust_units thrust_limit
    /\ Rocket.velocity_limit rocket
       = convert_units Rocket.velocity_units velocity_limit
    /\ Universe.init rocket planets = ret universe
    /\ Universe.planets universe = planets
    /\ (mass <> 0 -> 0 < time_interval -> (0 < time_steps)%nat ->
        globals_ready universe asteroids ->
        Rocket.mass rocket <> 0
        /\ exists prog state thrust,
             trajopt universe rocket asteroids time_interval time_steps
             = ret (prog, state, thrust))
    /\ (forall earth,
          (0 < time_steps)%nat ->
          Universe.find_planet planets "Earth" = Some earth ->
          length (Planet.position earth) <> 1%nat ->
          length (Planet.position earth) <> 2%nat ->
          trajopt universe rocket asteroids time_interval time_steps
          = raise ValueError).
Proof.
  do 2 eexists. repeat (split; [reflexivity |]).
  split.
  - intros Hmass _ _ Hready.
    split; [now apply unit_converter_nonzero |].
    destruct (trajopt_assembles _
                {| Rocket.mass := unit_converter Qmass mass 1;
                   Rocket.thrust_limit :=
                     convert_units Rocket.thrust_units thrust_limit;
                   Rocket.velocity_limit :=
                     convert_units Rocket.velocity_units velocity_limit |}
                asteroids time_interval time_steps Hready)
      as [eqs [_ [_ Hrun]]].
    eauto.
  - intros earth _ Hfind H1 H2.
    now apply (trajopt_misshapen_earth _ _ _ _ _ earth).
Qed.

(** C6, as stated, fails: a rocket of negative mass with negative limits
    and an ['Earth'] of negative mass are constructed, and the program is
    assembled for them, without any exception. *)
Lemma negative_inputs_are_accepted :
  exists rocket earth mars universe,
    Rocket.init (-5.49e5) (-0.25) (-170) = ret rocket
    /\ Rocket.mass rocket < 0
    /\ Rocket.thrust_limit rocket < 0
    /\ Rocket.velocity_limit rocket < 0
    /\ Planet.init "Earth" "green" (-5.972e24) [2.25e11; 0] 2e10
         (Some 6.378e6) = ret earth
    /\ Planet.mass earth < 0
    /\ Planet.init "Mars" "red" 6.417e23 [0; 0] 1.5e10 (Some 3.389e6)
       = ret mars
    /\ Universe.init rocket [earth; mars] = ret universe
    /\ ~ raises (trajopt universe rocket [] (1 / 2) 1).
Proof.
  do 4 eexists.
  split; [reflexivity |].
  split; [apply unit_converter_negative; lra |].
  split; [apply convert_units_negative; lra |].
  split; [apply convert_units_negative; lra |].
  split; [reflexivity |].
  split; [apply unit_converter_negative; lra |].
  split; [reflexivity |].
  split; [reflexivity |].
  match goal with
  | |- ~ raises (trajopt ?u ?r _ _ _) =>
      destruct (trajopt_assembles u r [] (1 / 2) 1) as [eqs [_ [_ Hrun]]]
  end.
  - repeat split.
    + intros body [<- | [<- | []]]; reflexivity.
    + eexists. reflexivity.
    + eexists. reflexivity.
    + intros asteroid [].
  - exact (returns_not_raises _ _ Hrun).
Qed.

Lemma construction_rejects_shapes_not_signs_witness :
  (exists rocket universe,
     Rocket.init (-5.49e5) (-0.25) (-170) = ret rocket
     /\ Universe.init rocket (Universe.planets sample_universe) = ret universe
     /\ exists prog state thrust,
          trajopt universe rocket [sample_asteroid] (1 / 2) 2
          = ret (prog, state, thrust))
  /\ (exists rocket universe,
        Rocket.init (-5.49e5) (-0.25) (-170) = ret rocket
        /\ Universe.init rocket [misshapen_earth] = ret universe
        /\ trajopt universe rocket [] (1 / 2) 2 = raise ValueError).
Proof.
  split.
  - destruct (construction_rejects_shapes_not_signs (-5.49e5) (-0.25) (-170)
                (Universe.planets sample_universe) [sample_asteroid]
                (1 / 2) 2)
      as [rocket [universe [Hr [_ [_ [_ [Hu [Hp [Hrun _]]]]]]]]].
    exists rocket, universe. split; [exact Hr |]. split; [exact Hu |].
    apply Hrun; [lra | lra | lia |].
    destruct universe as [r ps G]. simpl in Hp. subst ps.
    exact sample_globals_ready.
  - destruct (construction_rejects_shapes_not_signs (-5.49e5) (-0.25) (-170)
                [misshapen_earth] [] (1 / 2) 2)
      as [rocket [universe [Hr [_ [_ [_ [Hu [_ [_ Hshape]]]]]]]]].
    exists rocket, universe. split; [exact Hr |]. split; [exact Hu |].
    apply (Hshape misshapen_earth); [lia | reflexivity | |];
      simpl; discriminate.
Defined.

(** * Further properties of the notebook *)

(** ** Units *)

Lemma unit_base_positive (q : quantity) :
  exists base, 0 < base
    /\ forall x power, unit_converter q x power = x / powerRZ base power.
Proof.
  destruct q; eexists; (split; [| reflexivity]); lra.
Qed.

(** Converting twice adds the powers, and converting with the opposite
    power undoes a conversion (the converter used the other way around). *)
Theorem unit_converter_round_trip (q : quantity) (x : R) (p1 p2 : Z) :
  unit_converter q (unit_converter q x p1) p2
  = unit_converter q x (p1 + p2)
  /\ unit_converter q (unit_converter q x p1) (- p1) = x.
Proof.
  destruct (unit_base_positive q) as [base [Hbase Hq]].
  assert (Hne : base <> 0) by lra.
  assert (Hadd : forall a b,
            unit_converter q (unit_converter q x a) b
            = unit_converter q x (a + b)).
  { intros a b. rewrite !Hq, powerRZ_add by exact Hne.
    field. split; now apply powerRZ_NOR. }
  split; [apply Hadd |].
  rewrite Hadd, Z.add_opp_diag_r, Hq. simpl. field.
Qed.

(** ** Gravity on the surface of a planet *)

(** For a name that matches no planet, [gravity_on_planet_surface] prints
    the not-found line of [get_planet] and returns normally: unlike the
    other methods it tests the result of the lookup before it reads it. *)
Theorem surface_gravity_unknown_planet (u : Universe.t) (name : string) :
  (forall planet, In planet (Universe.planets u) ->
     Planet.name planet <> name) ->
  gravity_on_planet_surface u name
  = ([AsPrinted (Line (name ++ " is not in the Universe!")%string)], inr tt).
Proof.
  intros Hnone. apply find_planet_none in Hnone.
  unfold gravity_on_planet_surface.
  now rewrite (get_planet_missing u name Hnone).
Qed.

Lemma surface_gravity_unknown_planet_witness :
  gravity_on_planet_surface one_body "Jupiter"
  = ([AsPrinted (Line "Jupiter is not in the Universe!")], inr tt).
Proof.
  apply (surface_gravity_unknown_planet one_body "Jupiter").
  intros planet [<- | []]. simpl. discriminate.
Defined.

(** For a planet whose radius was left at its default, [np.nan], the
    method prints that the radius is unknown and prints no gravity. *)
Theorem surface_gravity_unknown_radius (u : Universe.t) (name : string)
  (planet : Planet.t) :
  Universe.find_planet (Universe.planets u) name = Some planet ->
  Planet.radius planet = None ->
  gravity_on_planet_surface u name
  = ([AsPrinted (Line (name ++ " has unknown radius.")%string)], inr tt).
Proof.
  intros Hfind Hradius. unfold gravity_on_planet_surface.
  rewrite (get_planet_found u name planet Hfind). unfold ret.
  now rewrite Hradius.
Qed.

Lemma surface_gravity_unknown_radius_witness :
  gravity_on_planet_surface one_body "Mars"
  = ([AsPrinted (Line "Mars has unknown radius.")], inr tt).
Proof.
  apply (surface_gravity_unknown_radius one_body "Mars"
           (sample_planet "Mars" 1 0 0 1)); reflexivity.
Defined.

Lemma surface_gravity_constructed (rocket : Rocket.t) (planets : list Planet.t)
  (u : Universe.t) (name color : string) (m orbit r : R) (pos : list R)
  (planet : Planet.t) :
  Planet.init name color m pos orbit (Some r) = ret planet ->
  Universe.init rocket planets = ret u ->
  Universe.find_planet planets name = Some planet ->
  r <> 0 ->
  gravity_on_planet_surface u name
  = ([GravityLine name (6.67e-11 * m / r ^ 2)], inr tt).
Proof.
  intros Hplanet Hu Hfind Hr.
  injection Hplanet as <-. injection Hu as <-.
  unfold gravity_on_planet_surface, Universe.get_planet.
  cbn [Universe.planets]. rewrite Hfind. unfold ret.
  cbn [Planet.radius Universe.G Planet.mass map app].
  match goal with
  | |- context [Req_dec_T ?d 0] => destruct (Req_dec_T d 0) as [Hz | _]
  end.
  - exfalso. revert Hz. apply pow_nonzero. unfold Rdiv.
    apply Rmult_integral_contrapositive_currified; [exact Hr |].
    apply Rinv_neq_0_compat. change (Pos.to_nat 1) with 1%nat. lra.
  - do 3 f_equal. unfold convert_units, g_inverse_units, unit_converter.
    simpl. change (Pos.to_nat 1) with 1%nat. change (Pos.to_nat 2) with 2%nat.
    change (Pos.to_nat 3) with 3%nat. field. lra.
Qed.

(** For a planet constructed with mass [m] (in kg) and a non-zero radius
    [r] (in m), in a constructed universe, the method prints Newton's
    [6.67e-11 * m / r^2]: the scalings of the constructors and the
    conversion back to meters and seconds cancel. *)
Theorem surface_gravity_in_mks (rocket : Rocket.t) (planets : list Planet.t)
  (u : Universe.t) (name color : string) (m orbit r : R) (pos : list R)
  (planet : Planet.t) :
  Planet.init name color m pos orbit (Some r) = ret planet ->
  Universe.init rocket planets = ret u ->
  Universe.find_planet planets name = Some planet ->
  r <> 0 ->
  gravity_on_planet_surface u name
  = ([GravityLine name (6.67e-11 * m / r ^ 2)], inr tt).
Proof. apply surface_gravity_constructed. Qed.

Lemma surface_gravity_in_mks_witness :
  gravity_on_planet_surface earth_alone "Earth"
  = ([GravityLine "Earth" (6.67e-11 * 5.972e24 / 6.378e6 ^ 2)], inr tt).
Proof.
  apply (surface_gravity_in_mks sample_rocket [earth] earth_alone "Earth"
           "green" 5.972e24 2e10 6.378e6 [2.25e11; 0] earth);
    try reflexivity.
  lra.
Defined.

(** ** Looking planets up by name *)

(** [get_planet] returns a planet, without printing, exactly when that
    planet is the first of the list that bears the name: a later planet
    of the same name is never returned. *)
Theorem get_planet_first_match (u : Universe.t) (name : string)
  (planet : Planet.t) :
  Universe.get_planet u name = ret (Some planet)
  <-> exists before after,
        Universe.planets u = before ++ planet :: after
        /\ Planet.name planet = name
        /\ forall other, In other before -> Planet.name other <> name.
Proof.
  unfold Universe.get_planet. generalize (Universe.planets u) as planets.
  intros planets. split.
  - destruct (Universe.find_planet planets name) as [found |] eqn:Hfind;
      [| discriminate].
    intros [= ->]. revert Hfind.
    induction planets as [| p rest IH]; simpl; [discriminate |].
    destruct (String.eqb (Planet.name p) name) eqn:E.
    + intros [= ->]. apply String.eqb_eq in E.
      exists [], rest. repeat split; [exact E | intros ? []].
    + intros Hfind. apply String.eqb_neq in E.
      destruct (IH Hfind) as [before [after [-> [Hname Hbefore]]]].
      exists (p :: before), after. repeat split; [exact Hname |].
      intros other [<- | Hin]; auto.
  - intros [before [after [-> [Hname Hbefore]]]].
    assert (Hfind : Universe.find_planet (before ++ planet :: after) name
                    = Some planet).
    { induction before as [| p before IH]; simpl.
      - apply String.eqb_eq in Hname. now rewrite Hname.
      - assert (Hp : Planet.name p <> name) by (apply Hbefore; now left).
        apply String.eqb_neq in Hp. rewrite Hp. apply IH.
        intros other Hin. apply Hbefore. now right. }
    now rewrite Hfind.
Qed.

(** In a universe whose planets have distinct names, looking up the name
    of a registered planet returns that planet and prints nothing. *)
Theorem get_planet_round_trip (u : Universe.t) (planet : Planet.t) :
  distinct_names u ->
  In planet (Universe.planets u) ->
  Universe.get_planet u (Planet.name planet) = ret (Some planet).
Proof.
  intros Hnames Hin. apply get_planet_found.
  now apply find_planet_distinct.
Qed.

Lemma get_planet_round_trip_witness :
  Universe.get_planet two_bodies "Mars"
  = ret (Some (sample_planet "Mars" 1 2 0 1)).
Proof.
  apply (get_planet_round_trip two_bodies (sample_planet "Mars" 1 2 0 1)).
  - unfold distinct_names. simpl. repeat constructor.
    + intros [H | []]. discriminate H.
    + intros [].
  - simpl. auto.
Defined.

(** ** The pull of one body *)

(** Away from the center of a body, [acceleration_from_planet] is a
    central inverse-square pull: its magnitude is [G * mass / d^2], it
    has no component across the direction to the body, and its component
    along the offset from the body is [- G * mass / d], so that it points
    to the body when [G * mass] is positive. *)
Theorem acceleration_inverse_square (u : Universe.t) (name : string)
  (body : Planet.t) (px py x y : R) (rest : list num) :
  Universe.find_planet (Universe.planets u) name = Some body ->
  Planet.position body = [px; py] ->
  ~ (x = px /\ y = py) ->
  let d := sqrt ((x - px) * (x - px) + (y - py) * (y - py)) in
  exists ax ay,
    Universe.acceleration_from_planet u (Some x :: Some y :: rest) name
    = ret [Some ax; Some ay]
    /\ ax * ax + ay * ay = (Universe.G u * Planet.mass body / d ^ 2) ^ 2
    /\ ax * (y - py) - ay * (x - px) = 0
    /\ ax * (x - px) + ay * (y - py) = - Universe.G u * Planet.mass body / d.
Proof.
  intros Hfind Hpos Hoff d.
  rewrite (acceleration_from_planet_num _ _ _ _ _ x y rest Hfind Hpos).
  assert (Hsq : d * d = (x - px) * (x - px) + (y - py) * (y - py))
    by apply sqrt_sqrt, square_sum_nonneg.
  assert (Hd : d <> 0).
  { intros Hz. apply sqrt_eq_0 in Hz; [| apply square_sum_nonneg].
    apply Rplus_sqr_eq_0 in Hz. apply Hoff. lra. }
  unfold body_acceleration. cbv zeta. fold d.
  rewrite num_div_nonzero by (now apply pow_nonzero).
  autorewrite with num_eval.
  set (c := - Universe.G u * Planet.mass body / d ^ 3).
  exists (c * (x - px)), (c * (y - py)). split; [reflexivity |].
  repeat split.
  - transitivity (c * c * ((x - px) * (x - px) + (y - py) * (y - py)));
      [ring |]. rewrite <- Hsq. unfold c. field. exact Hd.
  - ring.
  - transitivity (c * ((x - px) * (x - px) + (y - py) * (y - py)));
      [ring |]. rewrite <- Hsq. unfold c. field. exact Hd.
Qed.

Lemma acceleration_inverse_square_witness :
  exists ax ay,
    Universe.acceleration_from_planet one_body (state_of 3 4 0 0) "Mars"
    = ret [Some ax; Some ay]
    /\ ax * ax + ay * ay
       = (1 * 1 / sqrt ((3 - 0) * (3 - 0) + (4 - 0) * (4 - 0)) ^ 2) ^ 2
    /\ ax * (4 - 0) - ay * (3 - 0) = 0
    /\ ax * (3 - 0) + ay * (4 - 0)
       = - (1) * 1 / sqrt ((3 - 0) * (3 - 0) + (4 - 0) * (4 - 0)).
Proof.
  apply (acceleration_inverse_square one_body "Mars"
           (sample_planet "Mars" 1 0 0 1) 0 0 3 4 [Some 0; Some 0]);
    try reflexivity.
  intros [H _]. lra.
Defined.

(** ** The implicit Euler step *)

Lemma rocket_discrete_dynamics_num u x y vx vy x' y' vx' vy' ux uy h :
  distinct_names u -> planar u ->
  forall A B,
    Universe.rocket_continuous_dynamics u (state_of x' y' vx' vy')
      [Some ux; Some uy]
    = ret [Some vx'; Some vy'; A; B] ->
    Universe.rocket_discrete_dynamics u (state_of x y vx vy)
      (state_of x' y' vx' vy') [Some ux; Some uy] h
    = ret [Some (x' - x - h * vx'); Some (y' - y - h * vy');
           num_lift2 Rminus (Some (vx' - vx)) (num_lift2 Rmult (Some h) A);
           num_lift2 Rminus (Some (vy' - vy)) (num_lift2 Rmult (Some h) B)].
Proof.
  intros Hnames Hplanar A B Hdyn. unfold Universe.rocket_discrete_dynamics.
  rewrite Hdyn, bind_ret_l. reflexivity.
Qed.

Lemma ret_inj {A : Type} (a b : A) : ret a = ret b -> a = b.
Proof. now intros [= ->]. Qed.

(** The residual of the discrete dynamics is the zero vector exactly when
    the continuous dynamics at the next state is a vector of reals
    [(vx', vy', ax, ay)] and the two states are one backward Euler step
    apart: [state_next = state + h * (vx', vy', ax, ay)]. *)
Theorem zero_residual_iff_backward_euler (u : Universe.t)
  (x y vx vy x' y' vx' vy' ux uy h : R) :
  distinct_names u -> planar u ->
  Universe.rocket_discrete_dynamics u (state_of x y vx vy)
    (state_of x' y' vx' vy') [Some ux; Some uy] h
  = ret [Some 0; Some 0; Some 0; Some 0]
  <-> exists ax ay,
        Universe.rocket_continuous_dynamics u (state_of x' y' vx' vy')
          [Some ux; Some uy]
        = ret [Some vx'; Some vy'; Some ax; Some ay]
        /\ x' = x + h * vx' /\ y' = y + h * vy'
        /\ vx' = vx + h * ax /\ vy' = vy + h * ay.
Proof.
  intros Hnames Hplanar.
  pose proof (rocket_continuous_dynamics_num u x' y' vx' vy' ux uy
                Hnames Hplanar) as Hdyn.
  rewrite (rocket_discrete_dynamics_num u x y vx vy x' y' vx' vy' ux uy h
             Hnames Hplanar _ _ Hdyn).
  rewrite Hdyn.
  set (A := num_lift2 Rplus _ _). set (B := num_lift2 Rplus _ _).
  split.
  - intros Hzero. apply ret_inj in Hzero.
    injection Hzero as H0 H1 H2 H3.
    destruct A as [ax |]; [| discriminate H2].
    destruct B as [ay |]; [| discriminate H3].
    autorewrite with num_eval in H2, H3.
    injection H2 as H2. injection H3 as H3.
    exists ax, ay. repeat split; lra.
  - intros [ax [ay [Hval [H0 [H1 [H2 H3]]]]]].
    apply ret_inj in Hval. injection Hval as -> ->.
    autorewrite with num_eval.
    replace (x' - x - h * vx') with 0 by lra.
    replace (y' - y - h * vy') with 0 by lra.
    replace (vx' - vx - h * ax) with 0 by lra.
    replace (vy' - vy - h * ay) with 0 by lra.
    reflexivity.
Qed.

Lemma zero_residual_iff_backward_euler_witness :
  Universe.rocket_discrete_dynamics one_body (state_of 1 0 0 1)
    (state_of 1 1 0 1) [Some 0; Some 0] 1
  = ret [Some 0; Some 0; Some 0; Some 0]
  <-> exists ax ay,
        Universe.rocket_continuous_dynamics one_body (state_of 1 1 0 1)
          [Some 0; Some 0]
        = ret [Some 0; Some 1; Some ax; Some ay]
        /\ 1 = 1 + 1 * 0 /\ 1 = 0 + 1 * 1
        /\ 0 = 0 + 1 * ax /\ 1 = 1 + 1 * ay.
Proof.
  apply (zero_residual_iff_backward_euler one_body 1 0 0 1 1 1 0 1 0 0 1);
    apply one_body_well_formed.
Defined.

(** With a rocket of zero mass, which the constructor accepts, the two
    velocity entries of the residual are invalid ([inf] or [nan]) at
    every pair of states and every thrust; the position entries are not
    affected. *)
Theorem zero_mass_invalid_residual (u : Universe.t)
  (x y vx vy x' y' vx' vy' ux uy h : R) :
  distinct_names u -> planar u ->
  Rocket.mass (Universe.rocket u) = 0 ->
  Universe.rocket_discrete_dynamics u (state_of x y vx vy)
    (state_of x' y' vx' vy') [Some ux; Some uy] h
  = ret [Some (x' - x - h * vx'); Some (y' - y - h * vy'); None; None].
Proof.
  intros Hnames Hplanar Hmass.
  pose proof (rocket_continuous_dynamics_num u x' y' vx' vy' ux uy
                Hnames Hplanar) as Hdyn.
  rewrite (rocket_discrete_dynamics_num u x y vx vy x' y' vx' vy' ux uy h
             Hnames Hplanar _ _ Hdyn).
  now rewrite Hmass, !num_div_zero.
Qed.

Lemma zero_mass_invalid_residual_witness :
  Universe.rocket_discrete_dynamics massless_rocket_universe
    (state_of 1 0 0 1) (state_of 1 1 0 1) [Some 0; Some 0] 1
  = ret [Some (1 - 1 - 1 * 0); Some (1 - 0 - 1 * 1); None; None].
Proof.
  apply (zero_mass_invalid_residual massless_rocket_universe
           1 0 0 1 1 1 0 1 0 0 1).
  - unfold distinct_names. simpl. repeat constructor. intros [].
  - intros body [<- | []]. reflexivity.
  - reflexivity.
Defined.

(** ** What a zero orbit residual says *)

(** A state whose orbit-membership residual is the zero vector, for a
    body of positive orbit radius [r], is at distance [r] from the body,
    has no radial velocity, and has the squared speed [G * mass / r] of
    the circular orbit. *)
Theorem zero_orbit_residual_on_orbit (u : Universe.t) (name : string)
  (body : Planet.t) (px py x y vx vy : R) :
  Universe.find_planet (Universe.planets u) name = Some body ->
  Planet.position body = [px; py] ->
  0 < Planet.orbit body ->
  Universe.constraint_state_to_orbit u (state_of x y vx vy) name
  = ret [Some 0; Some 0; Some 0] ->
  sqrt ((x - px) * (x - px) + (y - py) * (y - py)) = Planet.orbit body
  /\ (x - px) * vx + (y - py) * vy = 0
  /\ vx * vx + vy * vy = Universe.G u * Planet.mass body / Planet.orbit body.
Proof.
  intros Hfind Hpos Hr Hzero.
  rewrite (constraint_state_to_orbit_num _ _ _ _ _ _ _ _ _ Hfind Hpos) in Hzero.
  apply ret_inj in Hzero. injection Hzero as Hp Hv Ha.
  set (r := Planet.orbit body) in *.
  assert (Hsq : (x - px) * (x - px) + (y - py) * (y - py) = r * r)
    by (revert Hp; generalize ((x - px) * (x - px) + (y - py) * (y - py));
        intros S HS; lra).
  assert (Hdist : sqrt ((x - px) * (x - px) + (y - py) * (y - py)) = r).
  { rewrite Hsq. apply sqrt_square. lra. }
  split; [exact Hdist |]. split; [exact Hv |].
  unfold residual_a_target_gravity in Ha.
  rewrite (gravity_term_on_circle _ _ _ _ _ _ r Hpos Hr Hdist), Hpos in Ha.
  simpl in Ha. autorewrite with num_eval in Ha. injection Ha as Ha.
  assert (E : (x - px) * (- Universe.G u * Planet.mass body * (x - px) / r ^ 3)
              + (y - py) * (- Universe.G u * Planet.mass body * (y - py) / r ^ 3)
              = - (Universe.G u * Planet.mass body / r)).
  { transitivity (- Universe.G u * Planet.mass body / r ^ 3
                  * ((x - px) * (x - px) + (y - py) * (y - py))).
    - field. lra.
    - rewrite Hsq. field. lra. }
  rewrite E in Ha. lra.
Qed.

Lemma zero_orbit_residual_on_orbit_witness :
  sqrt ((1 - 0) * (1 - 0) + (0 - 0) * (0 - 0)) = 1
  /\ (1 - 0) * 0 + (0 - 0) * 1 = 0
  /\ 0 * 0 + 1 * 1 = 1 * 1 / 1.
Proof.
  apply (zero_orbit_residual_on_orbit one_body "Mars"
           (sample_planet "Mars" 1 0 0 1) 0 0 1 0 0 1);
    try reflexivity; simpl; try lra.
  rewrite (constraint_state_to_orbit_num one_body "Mars"
             (sample_planet "Mars" 1 0 0 1) 0 0) by reflexivity.
  unfold residual_a_target_gravity.
  rewrite (gravity_term_on_circle _ _ 1 0 0 0 1); simpl;
    [| reflexivity | lra | apply sqrt_unit_offset; lra].
  autorewrite with num_eval.
  replace ((1 - 0) * (1 - 0) + (0 - 0) * (0 - 0) - 1 ^ 2) with 0 by ring.
  replace ((1 - 0) * 0 + (0 - 0) * 1) with 0 by ring.
  replace ((1 - 0) * (- (1) * 1 * (1 - 0) / 1 ^ 3)
           + (0 - 0) * (- (1) * 1 * (0 - 0) / 1 ^ 3) + (0 * 0 + 1 * 1))
    with 0 by field.
  reflexivity.
Defined.

(** ** Expressions and their values

    A method of [Universe] called on the values of its arguments does
    what it does on the expressions, and returns the values of the
    expressions it returns there. *)

Lemma map_M_ret {A B : Type} (f : A -> B) (a : A) :
  map_M f (ret a) = ret (f a).
Proof. reflexivity. Qed.

Lemma map_M_raise {A B : Type} (f : A -> B) (e : exn) :
  map_M f (raise e) = raise e.
Proof. reflexivity. Qed.

Lemma map_M_bind {A B C : Type} (f : B -> C) (m : M A) (k : A -> M B) :
  map_M f (bind m k) = bind m (fun a => map_M f (k a)).
Proof.
  destruct m as [out [e | a]]; [reflexivity |].
  unfold bind, map_M. simpl. reflexivity.
Qed.

Lemma bind_map_M {A B C : Type} (g : A -> B) (m : M A) (k : B -> M C) :
  bind (map_M g m) k = bind m (fun a => k (g a)).
Proof. destruct m as [out [e | a]]; reflexivity. Qed.

Lemma bind_ext {A B : Type} (m : M A) (k k' : A -> M B) :
  (forall a, k a = k' a) -> bind m k = bind m k'.
Proof.
  intros Hk. destruct m as [out [e | a]]; [reflexivity |].
  unfold bind. now rewrite Hk.
Qed.

Section Values.
Variable env : DecisionVariable -> R.

Lemma values_zip_with (f : Expression -> Expression -> Expression)
  (f' : num -> num -> num) (xs ys : list Expression) :
  (forall a b, eval env (f a b) = f' (eval env a) (eval env b)) ->
  values env (zip_with f xs ys) = zip_with f' (values env xs) (values env ys).
Proof.
  intros Hf. unfold values, zip_with. revert ys.
  induction xs as [| x xs IH]; intros [| y ys]; simpl; try reflexivity.
  now rewrite Hf, IH.
Qed.

Lemma values_elementwise (f : Expression -> Expression -> Expression)
  (f' : num -> num -> num) (xs ys : list Expression) :
  (forall a b, eval env (f a b) = f' (eval env a) (eval env b)) ->
  elementwise f' (values env xs) (values env ys)
  = map_M (values env) (elementwise f xs ys).
Proof.
  intros Hf.
  assert (Hl : forall a zs, map (f' (eval env a)) (values env zs)
                            = values env (map (f a) zs)).
  { intros a zs. unfold values. rewrite !map_map.
    apply map_ext. intros b. now rewrite Hf. }
  assert (Hr : forall b zs,
            map (fun x => f' x (eval env b)) (values env zs)
            = values env (map (fun x => f x b) zs)).
  { intros b zs. unfold values. rewrite !map_map.
    apply map_ext. intros a. now rewrite Hf. }
  assert (Hz : forall us vs,
            (if Nat.eqb (length (values env us)) (length (values env vs))
             then ret (zip_with f' (values env us) (values env vs))
             else raise ValueError)
            = map_M (values env)
                (if Nat.eqb (length us) (length vs)
                 then ret (zip_with f us vs) else raise ValueError)).
  { intros us vs. unfold values at 1 2. rewrite !length_map.
    destruct (Nat.eqb (length us) (length vs)); [| reflexivity].
    now rewrite map_M_ret, (values_zip_with f f'). }
  destruct xs as [| x [| x' xs]].
  - destruct ys as [| y [| y' ys]].
    + apply (Hz [] []).
    + reflexivity.
    + apply (Hz [] (y :: y' :: ys)).
  - unfold elementwise. cbn [values map]. now rewrite map_M_ret, <- Hl.
  - destruct ys as [| y [| y' ys]].
    + apply (Hz (x :: x' :: xs) []).
    + unfold elementwise. cbn [values map]. rewrite map_M_ret.
      f_equal. apply (Hr y (x :: x' :: xs)).
    + apply (Hz (x :: x' :: xs) (y :: y' :: ys)).
Qed.

Lemma eval_fold_add (ps : list Expression) (p : Expression) :
  eval env (fold_left s_add ps p)
  = fold_left s_add (values env ps) (eval env p).
Proof.
  revert p. induction ps as [| q ps IH]; intros p; [reflexivity |].
  cbn [fold_left values map]. now rewrite IH.
Qed.

Lemma values_dot (xs ys : list Expression) :
  dot (values env xs) (values env ys) = map_M (eval env) (dot xs ys).
Proof.
  unfold dot. unfold values at 1 2. rewrite !length_map.
  destruct (Nat.eqb (length xs) (length ys)); [| reflexivity].
  rewrite map_M_ret. f_equal.
  fold (values env xs). fold (values env ys).
  rewrite <- (values_zip_with s_mul s_mul) by reflexivity.
  destruct (zip_with s_mul xs ys) as [| p ps]; [reflexivity |].
  cbn [values map sum_products]. now rewrite eval_fold_add.
Qed.

Lemma values_scale (c : Expression) (xs : list Expression) :
  scale (eval env c) (values env xs) = values env (scale c xs).
Proof.
  unfold scale, values. rewrite !map_map. now apply map_ext.
Qed.

Lemma values_divide_by (xs : list Expression) (c : Expression) :
  divide_by (values env xs) (eval env c) = values env (divide_by xs c).
Proof.
  unfold divide_by, values. rewrite !map_map. now apply map_ext.
Qed.

Lemma values_constants (rs : list R) :
  values env (map s_const rs) = map s_const rs.
Proof. unfold values. rewrite map_map. now apply map_ext. Qed.

Lemma values_firstn n (xs : list Expression) :
  firstn n (values env xs) = values env (firstn n xs).
Proof. unfold values. now rewrite firstn_map. Qed.

Lemma values_skipn n (xs : list Expression) :
  skipn n (values env xs) = values env (skipn n xs).
Proof. unfold values. now rewrite skipn_map. Qed.

End Values.

Section ValuesOfMethods.
Variable env : DecisionVariable -> R.
Variable u : Universe.t.

Lemma for_loop_values {A : Type} (xs : list A)
  (body_num : list num -> A -> M (list num))
  (body : list Expression -> A -> M (list Expression)) :
  (forall acc x, body_num (values env acc) x
                 = map_M (values env) (body acc x)) ->
  forall acc,
    for_loop xs body_num (values env acc)
    = map_M (values env) (for_loop xs body acc).
Proof.
  intros Hbody. induction xs as [| x xs IH]; intros acc; [reflexivity |].
  cbn [for_loop]. rewrite Hbody, bind_map_M, map_M_bind.
  apply bind_ext. intros acc'. apply IH.
Qed.

Lemma position_wrt_planet_values (state : list Expression) (name : string) :
  Universe.position_wrt_planet u (values env state) name
  = map_M (values env) (Universe.position_wrt_planet u state name).
Proof.
  unfold Universe.position_wrt_planet. rewrite map_M_bind.
  apply bind_ext. intros planet. rewrite map_M_bind.
  apply bind_ext. intros position.
  rewrite values_firstn, <- (values_constants env).
  now apply values_elementwise.
Qed.

Lemma acceleration_from_planet_values (state : list Expression)
  (name : string) :
  Universe.acceleration_from_planet u (values env state) name
  = map_M (values env) (Universe.acceleration_from_planet u state name).
Proof.
  unfold Universe.acceleration_from_planet.
  rewrite position_wrt_planet_values, bind_map_M, map_M_bind.
  apply bind_ext. intros p.
  rewrite values_dot, bind_map_M, map_M_bind.
  apply bind_ext. intros pp. rewrite map_M_bind.
  apply bind_ext. intros planet. rewrite map_M_bind.
  apply bind_ext. intros mass.
  rewrite map_M_ret. f_equal. now rewrite <- values_scale.
Qed.

Lemma rocket_continuous_dynamics_values (state thrust : list Expression) :
  Universe.rocket_continuous_dynamics u (values env state)
    (values env thrust)
  = map_M (values env)
      (Universe.rocket_continuous_dynamics u state thrust).
Proof.
  unfold Universe.rocket_continuous_dynamics. cbv zeta.
  change (@s_const num num_Scalar (Rocket.mass (Universe.rocket u)))
    with (eval env (s_const (Rocket.mass (Universe.rocket u)))).
  rewrite values_divide_by.
  rewrite (for_loop_values (Universe.planets u) _
             (fun a planet =>
                g <- Universe.acceleration_from_planet u state
                       (Planet.name planet) ;;
                vadd a g)).
  - rewrite bind_map_M, map_M_bind. apply bind_ext. intros a.
    rewrite map_M_ret. f_equal. rewrite values_skipn.
    unfold values. now rewrite map_app.
  - intros acc planet.
    rewrite acceleration_from_planet_values, bind_map_M, map_M_bind.
    apply bind_ext. intros g. now apply values_elementwise.
Qed.

Lemma rocket_discrete_dynamics_eval
  (state state_next thrust : list Expression) (time_step : R) :
  Universe.rocket_discrete_dynamics u (values env state)
    (values env state_next) (values env thrust) time_step
  = map_M (values env)
      (Universe.rocket_discrete_dynamics u state state_next thrust time_step).
Proof.
  unfold Universe.rocket_discrete_dynamics.
  rewrite rocket_continuous_dynamics_values, bind_map_M, map_M_bind.
  apply bind_ext. intros state_dot.
  unfold vsub at 1 3. rewrite (values_elementwise env s_sub s_sub)
    by reflexivity.
  rewrite bind_map_M, map_M_bind. apply bind_ext. intros step.
  change (@s_const num num_Scalar time_step)
    with (eval env (s_const time_step)).
  rewrite values_scale. now apply values_elementwise.
Qed.

Lemma constraint_state_to_orbit_eval (state : list Expression)
  (planet_name : string) :
  Universe.constraint_state_to_orbit u (values env state) planet_name
  = map_M (values env)
      (Universe.constraint_state_to_orbit u state planet_name).
Proof.
  unfold Universe.constraint_state_to_orbit. rewrite map_M_bind.
  apply bind_ext. intros planet. rewrite map_M_bind.
  apply bind_ext. intros position.
  rewrite values_firstn, <- (values_constants env).
  unfold vsub. rewrite (values_elementwise env s_sub s_sub) by reflexivity.
  rewrite bind_map_M, map_M_bind. apply bind_ext. intros p. cbv zeta.
  rewrite values_dot, bind_map_M, map_M_bind. apply bind_ext. intros pp.
  rewrite map_M_bind. apply bind_ext. intros orbit.
  rewrite values_skipn, values_dot, bind_map_M, map_M_bind.
  apply bind_ext. intros residual_v.
  rewrite acceleration_from_planet_values, bind_map_M, map_M_bind.
  apply bind_ext. intros a.
  rewrite values_dot, bind_map_M, map_M_bind. apply bind_ext. intros pa.
  rewrite values_dot, bind_map_M, map_M_bind. apply bind_ext. intros vv.
  reflexivity.
Qed.

End ValuesOfMethods.

(** ** The assembled program, constraint by constraint *)

Lemma orbit_constraints_explicit universe name body time_steps t prog :
  planar universe ->
  Universe.find_planet (Universe.planets universe) name = Some body ->
  (t <= time_steps)%nat ->
  (s <- row (variable_matrix "state" (time_steps + 1) 4) t ;;
   residuals <- Universe.constraint_state_to_orbit universe s name ;;
   ret (add_residuals prog residuals))
  = ret (add_constraints prog
           (residual_equalities
              (Universe.constraint_state_to_orbit universe (state_row t)
                 name))).
Proof.
  intros Hplanar Hfind Ht.
  destruct (find_planet_some _ _ _ Hfind) as [Hin _].
  destruct (planar_position universe body Hplanar Hin) as [px [py Hpos]].
  rewrite row_state by exact Ht. rewrite bind_ret_l.
  fold (state_row t). unfold residual_equalities.
  destruct (constraint_state_to_orbit_any universe name body px py
              (state_entry t 0) (state_entry t 1) (state_entry t 2)
              (state_entry t 3) Hfind Hpos) as [r0 [r1 [r2 Hres]]].
  fold (state_row t) in Hres.
  now rewrite Hres, bind_ret_l, add_residuals_equalities.
Qed.

Lemma fold_add_constraints {A : Type} (f : A -> list Formula) (xs : list A)
  prog :
  fold_left (fun prog x => add_constraints prog (f x)) xs prog
  = add_constraints prog (flat_map f xs).
Proof.
  revert prog. induction xs as [| x xs IH]; intros prog.
  - simpl. now rewrite add_constraints_nil.
  - cbn [fold_left flat_map]. now rewrite IH, add_constraints_app.
Qed.

Lemma discretized_dynamics_explicit universe time_interval time_steps prog :
  planar universe ->
  discretized_dynamics universe time_interval time_steps
    (variable_matrix "state" (time_steps + 1) 4)
    (variable_matrix "thrust" time_steps 2) prog
  = ret (add_constraints prog
           (flat_map
              (fun t =>
                 residual_equalities
                   (Universe.rocket_discrete_dynamics universe (state_row t)
                      (state_row (t + 1)) (thrust_row t) time_interval))
              (seq 0 time_steps))).
Proof.
  intros Hplanar. unfold discretized_dynamics.
  rewrite (for_loop_ret _ _
             (fun prog t =>
                add_constraints prog
                  (residual_equalities
                     (Universe.rocket_discrete_dynamics universe (state_row t)
                        (state_row (t + 1)) (thrust_row t) time_interval)))).
  - now rewrite fold_add_constraints.
  - intros acc t Ht. apply in_seq in Ht.
    rewrite !row_state by lia. rewrite row_thrust by lia.
    rewrite !bind_ret_l. fold (state_row t) (state_row (t + 1)) (thrust_row t).
    destruct (rocket_discrete_dynamics_any universe
                (state_entry t 0) (state_entry t 1) (state_entry t 2)
                (state_entry t 3) (state_entry (t + 1) 0)
                (state_entry (t + 1) 1) (state_entry (t + 1) 2)
                (state_entry (t + 1) 3) (thrust_entry t 0)
                (thrust_entry t 1) time_interval Hplanar)
      as [r0 [r1 [r2 [r3 Hres]]]].
    fold (state_row t) (state_row (t + 1)) (thrust_row t) in Hres.
    unfold residual_equalities.
    now rewrite Hres, bind_ret_l, add_residuals_equalities.
Qed.

(** The cells assemble the program whose constraints are the equality
    constraints, then the limits and the keep-out constraints. *)
Lemma trajopt_explicit universe rocket asteroids time_interval time_steps :
  globals_ready universe asteroids ->
  trajopt universe rocket asteroids time_interval time_steps
  = ret (assembled_program rocket asteroids time_interval time_steps
           (equality_constraints universe time_interval time_steps),
         variable_matrix "state" (time_steps + 1) 4,
         variable_matrix "thrust" time_steps 2).
Proof.
  intros Hready. pose proof Hready as [Hplanar [[earth He] [[mars Hm] _]]].
  unfold trajopt, MathematicalProgram.NewContinuousVariables.
  cbv zeta. cbn [MathematicalProgram.decision_variables
                   MathematicalProgram.constraints MathematicalProgram.costs
                   MathematicalProgram.new app].
  fold (variable_matrix "state" (time_steps + 1) 4).
  fold (variable_matrix "thrust" time_steps 2).
  unfold initial_orbit_constraints, terminal_orbit_constraints.
  rewrite variable_matrix_rows.
  replace (time_steps + 1 - 1)%nat with time_steps by lia.
  rewrite (orbit_constraints_explicit universe "Earth" earth time_steps 0 _
             Hplanar He (Nat.le_0_l _)), bind_ret_l.
  rewrite (orbit_constraints_explicit universe "Mars" mars time_steps
             time_steps _ Hplanar Hm (Nat.le_refl _)), bind_ret_l.
  rewrite add_constraints_app.
  rewrite (discretized_dynamics_explicit _ _ _ _ Hplanar), bind_ret_l,
    add_constraints_app.
  rewrite thrust_limits_adds, bind_ret_l, add_constraints_app.
  rewrite velocity_limits_adds, bind_ret_l, add_constraints_app.
  rewrite (avoid_asteroids_adds _ _ _ _ Hready), bind_ret_l,
    add_constraints_app.
  rewrite fuel_cost_builds, bind_ret_l.
  unfold assembled_program, equality_constraints, add_constraints,
    MathematicalProgram.AddCost.
  cbn [MathematicalProgram.decision_variables
         MathematicalProgram.constraints MathematicalProgram.costs app].
  now rewrite <- !app_assoc.
Qed.

(** ** The size of the program *)

Lemma in_variable_matrix name rows cols v :
  In v (concat (variable_matrix name rows cols)) ->
  var_name v = name /\ (var_row v < rows)%nat /\ (var_col v < cols)%nat.
Proof.
  unfold variable_matrix. intros Hin.
  apply in_concat in Hin as [l [Hl Hv]].
  apply in_map_iff in Hl as [i [<- Hi]].
  apply in_map_iff in Hv as [j [<- Hj]].
  apply in_seq in Hi. apply in_seq in Hj. simpl.
  split; [reflexivity | lia].
Qed.

Lemma variable_rows_NoDup name cols s n :
  NoDup (concat (map (fun i => map (fun j => mkVariable name i j) (seq 0 cols))
                     (seq s n))).
Proof.
  revert s. induction n as [| n IH]; intros s; [constructor |].
  cbn [seq map concat]. apply NoDup_app.
  - apply NoDup_map_NoDup_ForallPairs; [| apply seq_NoDup].
    intros j j' _ _ Heq. now injection Heq.
  - apply IH.
  - intros v Hfirst Hrest.
    apply in_map_iff in Hfirst as [j [<- _]].
    apply in_concat in Hrest as [l [Hl Hv]].
    apply in_map_iff in Hl as [i [<- Hi]].
    apply in_map_iff in Hv as [j' [Heq _]].
    apply in_seq in Hi. injection Heq as Hrow _. lia.
Qed.

Lemma variable_matrix_size name rows cols :
  length (concat (variable_matrix name rows cols)) = (rows * cols)%nat.
Proof.
  unfold variable_matrix. generalize 0%nat at 2. induction rows as [| n IH].
  - reflexivity.
  - intros s. cbn [seq map concat].
    rewrite length_app, length_map, length_seq, IH. lia.
Qed.

Lemma filter_all {A : Type} (p : A -> bool) (xs : list A) :
  forallb p xs = true -> filter p xs = xs.
Proof.
  induction xs as [| x xs IH]; [reflexivity |]. simpl.
  intros H. apply andb_prop in H as [Hx Hxs]. now rewrite Hx, IH.
Qed.

(** The program of [time_steps] steps and [A] asteroids has
    [6 * time_steps + 4] decision variables, all different, one cost,
    [6 + 4 * time_steps] equality constraints, [2 * time_steps] upper
    bounds and [(time_steps + 1) * A] lower bounds, and no other
    constraint. *)
Theorem program_size (universe : Universe.t) (rocket : Rocket.t)
  (asteroids : list Planet.t) (time_interval : R) (time_steps : nat) :
  globals_ready universe asteroids ->
  exists prog state thrust,
    trajopt universe rocket asteroids time_interval time_steps
    = ret (prog, state, thrust)
    /\ length (MathematicalProgram.decision_variables prog)
       = (6 * time_steps + 4)%nat
    /\ NoDup (MathematicalProgram.decision_variables prog)
    /\ length (MathematicalProgram.costs prog) = 1%nat
    /\ length (filter is_equality (MathematicalProgram.constraints prog))
       = (6 + 4 * time_steps)%nat
    /\ length (filter is_upper_bound (MathematicalProgram.constraints prog))
       = (2 * time_steps)%nat
    /\ length (filter is_lower_bound (MathematicalProgram.constraints prog))
       = ((time_steps + 1) * length asteroids)%nat
    /\ length (MathematicalProgram.constraints prog)
       = (6 + 6 * time_steps + (time_steps + 1) * length asteroids)%nat.
Proof.
  intros Hready.
  destruct (trajopt_assembles universe rocket asteroids time_interval
              time_steps Hready) as [eqs [Hlen [Heqs Hrun]]].
  do 3 eexists. split; [exact Hrun |].
  unfold assembled_program.
  cbn [MathematicalProgram.decision_variables MathematicalProgram.constraints
         MathematicalProgram.costs].
  split; [| split; [| split; [reflexivity |]]].
  - rewrite length_app, !variable_matrix_size. lia.
  - apply NoDup_app; try apply variable_rows_NoDup.
    intros v Hs Ht. apply in_variable_matrix in Hs as [Hs _].
    apply in_variable_matrix in Ht as [Ht _]. rewrite Hs in Ht.
    discriminate Ht.
  - rewrite !filter_app, !length_app.
    rewrite (filter_all _ _ Heqs).
    rewrite (filter_none is_equality is_upper_bound eqs Heqs)
      by (now intros [? ? | ? ? | ? ?]).
    rewrite (filter_none is_equality is_lower_bound eqs Heqs)
      by (now intros [? ? | ? ? | ? ?]).
    rewrite !(filter_map_none _ is_equality) by reflexivity.
    rewrite !(filter_map_none _ is_lower_bound) by reflexivity.
    rewrite !(filter_map_all _ is_upper_bound) by reflexivity.
    rewrite keep_out_constraints_lower_bounds.
    assert (Hk : filter is_equality (keep_out_constraints asteroids time_steps)
                 = []
                 /\ filter is_upper_bound
                      (keep_out_constraints asteroids time_steps) = []).
    { unfold keep_out_constraints. generalize (seq 0 (time_steps + 1)).
      induction l as [| t ts [IH1 IH2]]; [split; reflexivity |].
      cbn [flat_map]. rewrite !filter_app, IH1, IH2.
      now rewrite !filter_map_none by reflexivity. }
    destruct Hk as [-> ->].
    rewrite !length_map, !length_seq, keep_out_constraints_length, Hlen.
    cbn [length]. repeat split; lia.
Qed.

Lemma program_size_witness :
  exists prog state thrust,
    trajopt sample_universe sample_rocket [sample_asteroid] (1 / 2) 100
    = ret (prog, state, thrust)
    /\ length (MathematicalProgram.decision_variables prog) = 604%nat
    /\ length (MathematicalProgram.constraints prog) = 707%nat.
Proof.
  destruct (program_size sample_universe sample_rocket [sample_asteroid]
              (1 / 2) 100 sample_globals_ready)
    as [prog [state [thrust [Hrun [Hvars [_ [_ [_ [_ [_ Hcs]]]]]]]]]].
  exists prog, state, thrust. auto.
Defined.

(** ** The feasible points of the program *)

Lemma holds_zero_residual env r :
  holds env (FEq r (EConst 0)) <-> eval env r = Some 0.
Proof.
  simpl. split.
  - intros [x [Hr [= <-]]]. exact Hr.
  - intros Hr. now exists 0.
Qed.

Lemma residuals_hold_iff env (m : M (list Expression)) rs :
  m = ret rs ->
  (forall f, In f (residual_equalities m) -> holds env f)
  <-> map_M (values env) m = ret (map (fun _ => Some 0) rs).
Proof.
  intros ->. unfold residual_equalities, returned. cbn [snd ret].
  rewrite map_M_ret. split.
  - intros Hall. f_equal. unfold values. apply map_ext_in.
    intros r Hr. apply holds_zero_residual, Hall.
    now apply (in_map (fun r => FEq r (EConst 0))).
  - intros Hval f Hf. apply ret_inj in Hval.
    apply in_map_iff in Hf as [r [<- Hr]]. apply holds_zero_residual.
    unfold values in Hval.
    assert (Hin : In (eval env r) (map (fun _ : Expression => Some 0) rs))
      by (rewrite <- Hval; now apply in_map).
    apply in_map_iff in Hin as [r' [Heq _]]. now symmetry.
Qed.

Lemma holds_thrust_limit env rocket t :
  holds env (thrust_limit_constraint rocket t)
  <-> thrust_energy env t <= Rocket.thrust_limit rocket ^ 2.
Proof.
  unfold thrust_limit_constraint. cbn [holds].
  rewrite eval_thrust_squared. cbn [eval]. split.
  - intros [x [y [[= <-] [[= <-] Hle]]]]. exact Hle.
  - intros Hle. eauto.
Qed.

Lemma holds_velocity_limit env rocket t :
  holds env (velocity_limit_constraint rocket t)
  <-> speed env t <= Rocket.velocity_limit rocket.
Proof.
  unfold velocity_limit_constraint, speed. cbn [holds eval state_entry].
  autorewrite with num_eval. split.
  - intros [x [y [[= <-] [[= <-] Hle]]]]. exact Hle.
  - intros Hle. eauto.
Qed.

Lemma holds_keep_out env asteroid t :
  holds env (keep_out_constraint asteroid t)
  <-> distance_to env t asteroid >= Planet.orbit asteroid.
Proof.
  unfold keep_out_constraint, distance_to. cbv zeta.
  cbn [holds eval state_entry]. autorewrite with num_eval. split.
  - intros [x [y [[= <-] [[= <-] Hge]]]]. exact Hge.
  - intros Hge. eauto.
Qed.

Lemma orbit_residual_returned universe name body t :
  planar universe ->
  Universe.find_planet (Universe.planets universe) name = Some body ->
  exists r0 r1 r2,
    Universe.constraint_state_to_orbit universe (state_row t) name
    = ret [r0; r1; r2].
Proof.
  intros Hplanar Hfind.
  destruct (find_planet_some _ _ _ Hfind) as [Hin _].
  destruct (planar_position universe body Hplanar Hin) as [px [py Hpos]].
  apply (constraint_state_to_orbit_any universe name body px py _ _ _ _
           Hfind Hpos).
Qed.

Lemma orbit_residual_feasible env universe name body t :
  planar universe ->
  Universe.find_planet (Universe.planets universe) name = Some body ->
  (forall f,
     In f (residual_equalities
             (Universe.constraint_state_to_orbit universe (state_row t) name))
     -> holds env f)
  <-> Universe.constraint_state_to_orbit universe (values env (state_row t))
        name
      = ret [Some 0; Some 0; Some 0].
Proof.
  intros Hplanar Hfind.
  destruct (orbit_residual_returned universe name body t Hplanar Hfind)
    as [r0 [r1 [r2 Hres]]].
  rewrite constraint_state_to_orbit_eval.
  apply (residuals_hold_iff env _ [r0; r1; r2] Hres).
Qed.

Lemma dynamics_residual_feasible env universe time_interval t :
  planar universe ->
  (forall f,
     In f (residual_equalities
             (Universe.rocket_discrete_dynamics universe (state_row t)
                (state_row (t + 1)) (thrust_row t) time_interval))
     -> holds env f)
  <-> Universe.rocket_discrete_dynamics universe (values env (state_row t))
        (values env (state_row (t + 1))) (values env (thrust_row t))
        time_interval
      = ret [Some 0; Some 0; Some 0; Some 0].
Proof.
  intros Hplanar.
  destruct (rocket_discrete_dynamics_any universe
              (state_entry t 0) (state_entry t 1) (state_entry t 2)
              (state_entry t 3) (state_entry (t + 1) 0)
              (state_entry (t + 1) 1) (state_entry (t + 1) 2)
              (state_entry (t + 1) 3) (thrust_entry t 0)
              (thrust_entry t 1) time_interval Hplanar)
    as [r0 [r1 [r2 [r3 Hres]]]].
  fold (state_row t) (state_row (t + 1)) (thrust_row t) in Hres.
  rewrite rocket_discrete_dynamics_eval.
  apply (residuals_hold_iff env _ [r0; r1; r2; r3] Hres).
Qed.

(** An assignment of the variables satisfies every constraint of the
    assembled program exactly when, at that assignment, the first state
    has a zero orbit residual for ['Earth'] and the last for ['Mars'],
    every step has a zero residual of the discrete dynamics, every
    thrust has [thrust . thrust] at most the squared thrust limit, every
    state but the last has a speed at most the velocity limit, and every
    state is at a distance of at least [orbit] from every asteroid. *)
Theorem feasible_iff_trajectory_conditions (universe : Universe.t)
  (rocket : Rocket.t) (asteroids : list Planet.t) (time_interval : R)
  (time_steps : nat) (env : DecisionVariable -> R) :
  globals_ready universe asteroids ->
  exists prog state thrust,
    trajopt universe rocket asteroids time_interval time_steps
    = ret (prog, state, thrust)
    /\ ((forall f, In f (MathematicalProgram.constraints prog) ->
           holds env f)
        <-> trajectory_conditions universe rocket asteroids time_interval
              time_steps env).
Proof.
  intros Hready. pose proof Hready as [Hplanar [[earth He] [[mars Hm] _]]].
  do 3 eexists. split; [now apply trajopt_explicit |].
  unfold assembled_program, trajectory_conditions, equality_constraints,
    keep_out_constraints.
  cbn [MathematicalProgram.constraints].
  rewrite <- (orbit_residual_feasible env universe "Earth" earth 0 Hplanar He).
  rewrite <- (orbit_residual_feasible env universe "Mars" mars time_steps
                Hplanar Hm).
  split.
  - intros Hall. repeat split.
    + intros f Hf. apply Hall. rewrite !in_app_iff. auto.
    + intros f Hf. apply Hall. rewrite !in_app_iff. auto.
    + intros t Ht.
      apply (dynamics_residual_feasible env universe time_interval t Hplanar).
      intros f Hf. apply Hall. rewrite !in_app_iff. left. right. right.
      apply in_flat_map. exists t. split; [apply in_seq; lia | exact Hf].
    + intros t Ht. apply holds_thrust_limit, Hall. rewrite !in_app_iff.
      right. left. apply in_map, in_seq. lia.
    + intros t Ht. apply holds_velocity_limit, Hall. rewrite !in_app_iff.
      right. right. left. apply in_map, in_seq. lia.
    + intros t asteroid Ht Hin. apply holds_keep_out, Hall.
      rewrite !in_app_iff. right. right. right.
      apply in_flat_map. exists t. split; [apply in_seq; lia |].
      now apply (in_map (fun a => keep_out_constraint a t)).
  - intros [HE [HM [Hdyn [Hthrust [Hspeed Hkeep]]]]] f Hf.
    rewrite !in_app_iff in Hf.
    destruct Hf as [[Hf | [Hf | Hf]] | [Hf | [Hf | Hf]]].
    + now apply HE.
    + now apply HM.
    + apply in_flat_map in Hf as [t [Ht Hf]]. apply in_seq in Ht.
      revert f Hf.
      apply (dynamics_residual_feasible env universe time_interval t Hplanar).
      apply Hdyn. lia.
    + apply in_map_iff in Hf as [t [<- Ht]]. apply in_seq in Ht.
      apply holds_thrust_limit, Hthrust. lia.
    + apply in_map_iff in Hf as [t [<- Ht]]. apply in_seq in Ht.
      apply holds_velocity_limit, Hspeed. lia.
    + apply in_flat_map in Hf as [t [Ht Hf]]. apply in_seq in Ht.
      apply in_map_iff in Hf as [asteroid [<- Hin]].
      apply holds_keep_out, Hkeep; [lia | exact Hin].
Qed.

Lemma feasible_iff_trajectory_conditions_witness :
  exists prog state thrust,
    trajopt sample_universe sample_rocket [sample_asteroid] (1 / 2) 2
    = ret (prog, state, thrust)
    /\ ((forall f, In f (MathematicalProgram.constraints prog) ->
           holds (fun _ => 0) f)
        <-> trajectory_conditions sample_universe sample_rocket
              [sample_asteroid] (1 / 2) 2 (fun _ => 0)).
Proof.
  apply (feasible_iff_trajectory_conditions sample_universe sample_rocket
           [sample_asteroid] (1 / 2) 2 (fun _ => 0)).
  exact sample_globals_ready.
Defined.

(** ** The thrust limit in squared form *)

(** The thrust constraint, written on [thrust . thrust] to avoid the
    root, holds exactly when the norm of the thrust is at most the
    absolute value of the thrust limit: it is the bound on the norm when
    the limit is not negative, and still admits thrusts when it is. *)
Theorem thrust_limit_bounds_norm (env : DecisionVariable -> R)
  (rocket : Rocket.t) (t : nat) :
  holds env (thrust_limit_constraint rocket t)
  <-> sqrt (thrust_energy env t) <= Rabs (Rocket.thrust_limit rocket).
Proof.
  rewrite holds_thrust_limit.
  set (L := Rocket.thrust_limit rocket). set (e := thrust_energy env t).
  assert (He : 0 <= e) by apply square_sum_nonneg.
  assert (HL : L ^ 2 = Rsqr L) by (unfold Rsqr; ring).
  rewrite HL. split.
  - intros Hle. rewrite <- sqrt_Rsqr_abs. now apply sqrt_le_1_alt.
  - intros Hle. rewrite (Rsqr_abs L).
    rewrite <- (sqrt_sqrt e He). fold (Rsqr (sqrt e)).
    apply Rsqr_incr_1; [exact Hle | apply sqrt_pos | apply Rabs_pos].
Qed.

(** ** The fuel consumption *)

Lemma fuel_loop_pairs (us : list (R * R)) (a : R) :
  for_loop (thrust_array us)
    (fun acc t => sq <- dot t t ;; ret (s_add acc sq))
    (Some a)
  = ret (Some (a + energy_sum us)).
Proof.
  revert a. induction us as [| [p q] us IH]; intros a.
  - simpl. do 2 f_equal. ring.
  - cbn [thrust_array map for_loop fst snd]. unfold dot at 1.
    cbn [length Nat.eqb]. rewrite !bind_ret_l. unfold zip_with.
    cbn [combine map fst snd sum_products fold_left s_mul s_add num_Scalar].
    autorewrite with num_eval. fold (thrust_array us). rewrite IH.
    do 2 f_equal. cbn [energy_sum fold_right fst snd].
    fold (energy_sum us). ring.
Qed.

Lemma energy_sum_nonneg (us : list (R * R)) : 0 <= energy_sum us.
Proof.
  induction us as [| [p q] us IH]; simpl; [lra |].
  pose proof (square_sum_nonneg p q). lra.
Qed.

Lemma energy_sum_zero (us : list (R * R)) :
  energy_sum us = 0 <-> forall p, In p us -> p = (0, 0).
Proof.
  induction us as [| [p q] us IH]; simpl.
  - split; [intros _ ? [] | reflexivity].
  - pose proof (square_sum_nonneg p q) as Hpq.
    pose proof (energy_sum_nonneg us) as Hus.
    fold (energy_sum us). split.
    + intros Hsum.
      assert (Hz : p * p + q * q = 0) by lra.
      assert (Hrest : energy_sum us = 0) by lra.
      apply Rplus_sqr_eq_0 in Hz as [-> ->].
      intros p' [<- | Hin]; [reflexivity | now apply IH].
    + intros Hall.
      assert (Hpq0 : (p, q) = (0, 0)) by (apply Hall; now left).
      injection Hpq0 as -> ->.
      assert (Hrest : energy_sum us = 0)
        by (apply IH; intros p' Hin; apply Hall; now right).
      rewrite Hrest. ring.
Qed.

(** [fuel_consumption] returns [h] times the sum of the squared norms of
    the thrusts, for any array of finite thrusts, the empty one
    included; for [h >= 0] it is not negative, and for [h > 0] it is
    zero exactly when every thrust is the zero vector. *)
Theorem fuel_consumption_sign (us : list (R * R)) (h : R) :
  fuel_consumption (thrust_array us) h = ret (Some (h * energy_sum us))
  /\ (0 <= h -> 0 <= h * energy_sum us)
  /\ (0 < h ->
      (h * energy_sum us = 0 <-> forall p, In p us -> p = (0, 0))).
Proof.
  pose proof (energy_sum_nonneg us) as Hnn. repeat split.
  - unfold fuel_consumption.
    change (@s_const num num_Scalar 0) with (Some 0).
    rewrite fuel_loop_pairs, bind_ret_l.
    cbn [s_mul s_const num_Scalar]. autorewrite with num_eval.
    do 2 f_equal. ring.
  - intros Hh. now apply Rmult_le_pos.
  - intros Hzero. apply energy_sum_zero.
    apply Rmult_integral in Hzero as [Hzero | Hzero]; lra.
  - intros Hall. apply energy_sum_zero in Hall. rewrite Hall. ring.
Qed.

(** ** A successful solve *)

Lemma eval_fuel_cost_expression env h n :
  eval env (fuel_cost_expression h n)
  = Some (h * sum_over (thrust_energy env) (seq 0 n)).
Proof.
  unfold fuel_cost_expression.
  rewrite (eval_fuel_cost_loop env h _ (EConst 0) 0 eq_refl).
  f_equal. rewrite (fold_left_sum (fun t => h * thrust_energy env t)).
  rewrite sum_over_scale. ring.
Qed.

Lemma fuel_consumption_of_solution result h n :
  fuel_consumption
    (MathematicalProgramResult.GetSolution result
       (variable_matrix "thrust" n 2)) h
  = ret (Some (h * sum_over
                     (thrust_energy (MathematicalProgramResult.value result))
                     (seq 0 n))).
Proof.
  unfold fuel_consumption, MathematicalProgramResult.GetSolution,
    variable_matrix.
  change (@s_const num num_Scalar 0) with (Some 0).
  rewrite fuel_consumption_loop, bind_ret_l.
  cbn [s_mul s_const num_Scalar]. autorewrite with num_eval.
  rewrite (fold_left_sum
             (thrust_energy (MathematicalProgramResult.value result))).
  do 2 f_equal. ring.
Qed.

(** When the solver reports success on the assembled program, the cell
    prints one line, the fuel report, whose number is the value of the
    one cost of the program at the solution, and returns the solution:
    [time_steps] thrusts and [time_steps + 1] states, read from the
    result. *)
Theorem solve_success_reports_cost
  (solver : MathematicalProgram.t -> MathematicalProgramResult.t)
  (universe : Universe.t) (rocket : Rocket.t) (asteroids : list Planet.t)
  (time_interval : R) (time_steps : nat) :
  globals_ready universe asteroids ->
  exists prog state thrust cost,
    trajopt universe rocket asteroids time_interval time_steps
    = ret (prog, state, thrust)
    /\ MathematicalProgram.costs prog = [cost]
    /\ (MathematicalProgramResult.is_success (solver prog) = true ->
        let result := solver prog in
        let thrust_opt := MathematicalProgramResult.GetSolution result thrust in
        let state_opt := MathematicalProgramResult.GetSolution result state in
        solve_and_report solver prog state thrust time_interval
        = ([FuelReport
              (eval (MathematicalProgramResult.value result) cost)],
           inr (thrust_opt, state_opt))
        /\ length thrust_opt = time_steps
        /\ length state_opt = (time_steps + 1)%nat).
Proof.
  intros Hready.
  destruct (trajopt_assembles universe rocket asteroids time_interval
              time_steps Hready) as [eqs [_ [_ Hrun]]].
  do 4 eexists. split; [exact Hrun |]. split; [reflexivity |].
  intros Hsuccess result thrust_opt state_opt.
  subst result thrust_opt state_opt.
  unfold solve_and_report. cbv zeta. rewrite Hsuccess, bind_ret_l.
  rewrite fuel_consumption_of_solution, bind_ret_l.
  rewrite eval_fuel_cost_expression. split; [reflexivity |].
  unfold MathematicalProgramResult.GetSolution.
  now rewrite !length_map, !variable_matrix_rows.
Qed.

Lemma solve_success_reports_cost_witness :
  exists prog state thrust cost,
    trajopt sample_universe sample_rocket [sample_asteroid] (1 / 2) 2
    = ret (prog, state, thrust)
    /\ MathematicalProgram.costs prog = [cost]
    /\ solve_and_report zero_solver prog state thrust (1 / 2)
       = ([FuelReport (eval (fun _ => 0) cost)],
          inr (MathematicalProgramResult.GetSolution (zero_solver prog) thrust,
               MathematicalProgramResult.GetSolution (zero_solver prog) state)).
Proof.
  destruct (solve_success_reports_cost zero_solver sample_universe
              sample_rocket [sample_asteroid] (1 / 2) 2 sample_globals_ready)
    as [prog [state [thrust [cost [Hrun [Hcost Hsolve]]]]]].
  exists prog, state, thrust, cost. split; [exact Hrun |].
  split; [exact Hcost |]. now destruct (Hsolve eq_refl) as [Hreport _].
Defined.

(** ** Attraction and repulsion *)

Lemma constructed_G_positive rocket planets u :
  Universe.init rocket planets = ret u -> 0 < Universe.G u.
Proof.
  intros [= <-]. simpl.
  change (Pos.to_nat 1) with 1%nat. change (Pos.to_nat 2) with 2%nat.
  change (Pos.to_nat 3) with 3%nat.
  repeat first [lra | apply Rdiv_lt_0_compat | apply Rinv_0_lt_compat
                | apply pow_lt].
Qed.

(** In a constructed universe the pull of a body on a state away from
    its center is towards the body when the mass of the body is
    positive, and away from it when the mass is negative (the notebook
    draws the masses of the asteroids from a normal law). *)
Theorem gravity_attracts_positive_mass (rocket : Rocket.t)
  (planets : list Planet.t) (u : Universe.t) (name : string)
  (body : Planet.t) (px py x y : R) (rest : list num) :
  Universe.init rocket planets = ret u ->
  Universe.find_planet planets name = Some body ->
  Planet.position body = [px; py] ->
  ~ (x = px /\ y = py) ->
  exists ax ay,
    Universe.acceleration_from_planet u (Some x :: Some y :: rest) name
    = ret [Some ax; Some ay]
    /\ (0 < Planet.mass body -> ax * (x - px) + ay * (y - py) < 0)
    /\ (Planet.mass body < 0 -> 0 < ax * (x - px) + ay * (y - py)).
Proof.
  intros Hinit Hfind Hpos Hoff.
  pose proof (constructed_G_positive _ _ _ Hinit) as HG.
  assert (Hplanets : Universe.planets u = planets) by now injection Hinit as <-.
  rewrite <- Hplanets in Hfind.
  rewrite (acceleration_from_planet_num _ _ _ _ _ x y rest Hfind Hpos).
  set (d := sqrt ((x - px) * (x - px) + (y - py) * (y - py))).
  assert (Hsq : d * d = (x - px) * (x - px) + (y - py) * (y - py))
    by apply sqrt_sqrt, square_sum_nonneg.
  assert (Hd : 0 < d).
  { destruct (sqrt_pos ((x - px) * (x - px) + (y - py) * (y - py)))
      as [Hlt | Hz]; [exact Hlt |].
    exfalso. symmetry in Hz. apply sqrt_eq_0 in Hz;
      [| apply square_sum_nonneg].
    apply Rplus_sqr_eq_0 in Hz. apply Hoff. lra. }
  unfold body_acceleration. cbv zeta. fold d.
  rewrite num_div_nonzero by (apply pow_nonzero; lra).
  autorewrite with num_eval.
  set (c := - Universe.G u * Planet.mass body / d ^ 3).
  exists (c * (x - px)), (c * (y - py)). split; [reflexivity |].
  assert (Hradial : c * (x - px) * (x - px) + c * (y - py) * (y - py)
                    = - (Universe.G u * Planet.mass body) / d).
  { transitivity (c * ((x - px) * (x - px) + (y - py) * (y - py)));
      [ring |]. rewrite <- Hsq. unfold c. field. lra. }
  rewrite Hradial. split; intros Hm.
  - assert (0 < Universe.G u * Planet.mass body / d)
      by (apply Rdiv_lt_0_compat; nra).
    unfold Rdiv in *. lra.
  - assert (0 < Universe.G u * (- Planet.mass body) / d)
      by (apply Rdiv_lt_0_compat; nra).
    unfold Rdiv in *. nra.
Qed.

Lemma gravity_attracts_positive_mass_witness :
  exists ax ay,
    Universe.acceleration_from_planet earth_alone
      [Some (unit_converter Qlength 2.25e11 1 + 1);
       Some (unit_converter Qlength 0 1); Some 0; Some 0] "Earth"
    = ret [Some ax; Some ay]
    /\ (0 < Planet.mass earth ->
        ax * (unit_converter Qlength 2.25e11 1 + 1
              - unit_converter Qlength 2.25e11 1)
        + ay * (unit_converter Qlength 0 1 - unit_converter Qlength 0 1) < 0)
    /\ (Planet.mass earth < 0 ->
        0 < ax * (unit_converter Qlength 2.25e11 1 + 1
                  - unit_converter Qlength 2.25e11 1)
            + ay * (unit_converter Qlength 0 1 - unit_converter Qlength 0 1)).
Proof.
  apply (gravity_attracts_positive_mass sample_rocket [earth] earth_alone
           "Earth" earth); try reflexivity.
  intros [H _]. lra.
Defined.

(** A planet of radius zero makes the method raise
    [ZeroDivisionError], after printing nothing. *)
Theorem surface_gravity_zero_radius (u : Universe.t) (name : string)
  (planet : Planet.t) :
  Universe.find_planet (Universe.planets u) name = Some planet ->
  Planet.radius planet = Some 0 ->
  gravity_on_planet_surface u name = ([], inl ZeroDivisionError).
Proof.
  intros Hfind Hradius. unfold gravity_on_planet_surface.
  rewrite (get_planet_found u name planet Hfind). unfold ret.
  rewrite Hradius.
  destruct (Req_dec_T (0 ^ 2) 0) as [_ | Hne]; [reflexivity |].
  exfalso. apply Hne. ring.
Qed.

Lemma surface_gravity_zero_radius_witness :
  gravity_on_planet_surface point_planet_universe "Point"
  = ([], inl ZeroDivisionError).
Proof.
  eapply (surface_gravity_zero_radius point_planet_universe "Point");
    reflexivity.
Defined.

(** ** States of the wrong length *)

(** For a planet that is found and planar, [constraint_state_to_orbit]
    raises [ValueError] on every state whose length is not four, whatever
    the scalars: a shorter or longer state never yields residuals. *)
Theorem orbit_residual_wrong_length {T : Type} `{Scalar T}
  (u : Universe.t) (name : string) (body : Planet.t) (px py : R)
  (state : list T) :
  Universe.find_planet (Universe.planets u) name = Some body ->
  Planet.position body = [px; py] ->
  length state <> 4%nat ->
  Universe.constraint_state_to_orbit u state name = raise ValueError.
Proof.
  intros Hfind Hpos Hlen. unfold Universe.constraint_state_to_orbit.
  rewrite (get_planet_found _ _ _ Hfind), bind_ret_l. simpl attr.
  rewrite bind_ret_l, Hpos.
  destruct state as [| s0 [| s1 [| s2 [| s3 [| s4 rest]]]]];
    try reflexivity.
  now contradiction Hlen.
Qed.

Lemma orbit_residual_wrong_length_witness :
  Universe.constraint_state_to_orbit one_body [Some 1; Some 0; Some 0] "Mars"
  = raise ValueError.
Proof.
  apply (orbit_residual_wrong_length one_body "Mars"
           (sample_planet "Mars" 1 0 0 1) 0 0); try reflexivity.
  simpl. lia.
Defined.

(** ** Assembling without an Earth *)

(** When no planet of the universe is named ['Earth'], the cells stop at
    the first constraint: they print the not-found line and raise
    [AttributeError], and no program is returned. *)
Theorem trajopt_without_earth (universe : Universe.t) (rocket : Rocket.t)
  (asteroids : list Planet.t) (time_interval : R) (time_steps : nat) :
  (forall planet, In planet (Universe.planets universe) ->
     Planet.name planet <> "Earth") ->
  trajopt universe rocket asteroids time_interval time_steps
  = ([Line "Earth is not in the Universe!"], inl AttributeError).
Proof.
  intros Hnone. apply find_planet_none in Hnone.
  unfold trajopt, MathematicalProgram.NewContinuousVariables. cbv zeta.
  fold (variable_matrix "state" (time_steps + 1) 4).
  unfold initial_orbit_constraints.
  rewrite row_state by lia. rewrite bind_ret_l.
  unfold Universe.constraint_state_to_orbit.
  rewrite (get_planet_missing _ _ Hnone). reflexivity.
Qed.

Lemma trajopt_without_earth_witness :
  trajopt one_body sample_rocket [] (1 / 2) 2
  = ([Line "Earth is not in the Universe!"], inl AttributeError).
Proof.
  apply (trajopt_without_earth one_body sample_rocket [] (1 / 2) 2).
  intros planet [<- | []]. simpl. discriminate.
Defined.

(** ** The universe of the notebook *)

Lemma fold_left_append {A B : Type} (f : A -> B) (xs : list A) (acc : list B) :
  fold_left (fun l x => l ++ [f x]) xs acc = acc ++ map f xs.
Proof.
  revert acc. induction xs as [| x xs IH]; intros acc; simpl.
  - now rewrite app_nil_r.
  - rewrite IH, <- app_assoc. reflexivity.
Qed.

Lemma make_asteroids_returns draws :
  make_asteroids draws = ret (asteroids_of draws).
Proof.
  unfold make_asteroids.
  rewrite (for_loop_ret _ _
             (fun l id => l ++ [asteroid_of (fst id) (snd id)])).
  - now rewrite fold_left_append.
  - intros acc id _. reflexivity.
Qed.

Lemma setup_returns draws :
  setup draws = ret (universe_of draws, falcon, asteroids_of draws).
Proof.
  unfold setup, Rocket.init, Planet.init, Universe.init.
  rewrite !bind_ret_l, make_asteroids_returns, !bind_ret_l.
  reflexivity.
Qed.

Lemma asteroid_name_inj i j : asteroid_name i = asteroid_name j -> i = j.
Proof.
  unfold asteroid_name. simpl. intros [= Heq].
  apply DecimalNat.Unsigned.to_uint_inj.
  pose proof (NilEmpty.usu (Nat.to_uint i)) as Hi.
  rewrite Heq, NilEmpty.usu in Hi. now injection Hi.
Qed.

Lemma in_asteroids_of draws asteroid :
  In asteroid (asteroids_of draws) ->
  exists i d, asteroid = asteroid_of i d /\ (i < length draws)%nat.
Proof.
  unfold asteroids_of. intros Hin.
  apply in_map_iff in Hin as [[i d] [<- Hin]].
  apply in_combine_l in Hin. apply in_seq in Hin.
  exists i, d. split; [reflexivity | lia].
Qed.

Lemma asteroid_names draws :
  map Planet.name (asteroids_of draws)
  = map asteroid_name (seq 0 (length draws)).
Proof.
  unfold asteroids_of. rewrite map_map. cbn [asteroid_of Planet.name].
  generalize 0%nat. induction draws as [| d draws IH]; intros s.
  - reflexivity.
  - cbn [length seq combine map fst]. now rewrite IH.
Qed.

Lemma universe_of_distinct_names draws : distinct_names (universe_of draws).
Proof.
  unfold distinct_names, universe_of.
  cbn [Universe.planets app map]. rewrite asteroid_names.
  assert (Hast : forall name, In name (map asteroid_name (seq 0 (length draws)))
                 -> exists i, name = asteroid_name i).
  { intros name Hin. apply in_map_iff in Hin as [i [<- _]]. eauto. }
  constructor; [| constructor].
  - intros [Hm | Hin]; [discriminate Hm |].
    apply Hast in Hin as [i Hi]. discriminate Hi.
  - intros Hin. apply Hast in Hin as [i Hi]. discriminate Hi.
  - apply NoDup_map_NoDup_ForallPairs; [| apply seq_NoDup].
    intros i j _ _. apply asteroid_name_inj.
Qed.

Lemma universe_of_planar draws : planar (universe_of draws).
Proof.
  intros body [<- | [<- | Hin]]; try reflexivity.
  apply in_asteroids_of in Hin as [i [d [-> _]]]. reflexivity.
Qed.

Lemma universe_of_ready draws :
  globals_ready (universe_of draws) (asteroids_of draws).
Proof.
  split; [apply universe_of_planar |].
  split; [exists earth; reflexivity |].
  split; [exists mars; reflexivity |].
  intros asteroid Hin. apply find_planet_distinct.
  - apply universe_of_distinct_names.
  - cbn [universe_of Universe.planets app]. right. right. exact Hin.
Qed.

(** Whatever the samples of the asteroids are, the first cells return a
    universe whose planets have distinct names and planar positions, in
    which ['Earth'], ['Mars'] and every asteroid are found under their
    names, with one asteroid per sample: the cells of the trajectory
    optimization never raise for a missing planet. *)
Theorem setup_is_ready (draws : list asteroid_draw) :
  exists universe rocket asteroids,
    setup draws = ret (universe, rocket, asteroids)
    /\ Universe.rocket universe = rocket
    /\ length asteroids = length draws
    /\ distinct_names universe
    /\ planar universe
    /\ globals_ready universe asteroids.
Proof.
  exists (universe_of draws), falcon, (asteroids_of draws).
  split; [apply setup_returns |]. split; [reflexivity |].
  split.
  - unfold asteroids_of. rewrite length_map, length_combine, length_seq.
    apply Nat.min_id.
  - split; [apply universe_of_distinct_names |].
    split; [apply universe_of_planar | apply universe_of_ready].
Qed.

(** ** Double checking the physics *)

(** Whatever the asteroids are, the cell prints the gravity on the
    surface of the Earth, between 9.79 and 9.80 m/s^2, the gravity on
    the surface of Mars, between 3.72 and 3.73 m/s^2, and the line that
    Jupiter is not in the universe, and raises nothing. *)
Theorem double_check_physics_prints (draws : list asteroid_draw) :
  exists g_earth g_mars,
    double_check_physics (universe_of draws)
    = ([GravityLine "Earth" g_earth; GravityLine "Mars" g_mars;
        AsPrinted (Line "Jupiter is not in the Universe!")], inr tt)
    /\ g_earth = 6.67e-11 * 5.972e24 / 6.378e6 ^ 2
    /\ g_mars = 6.67e-11 * 6.417e23 / 3.389e6 ^ 2
    /\ 9.79 < g_earth < 9.80
    /\ 3.72 < g_mars < 3.73.
Proof.
  do 2 eexists. split; [| split; [reflexivity | split; [reflexivity |]]].
  - unfold double_check_physics.
    rewrite (surface_gravity_constructed falcon
               ([earth; mars] ++ asteroids_of draws) (universe_of draws)
               "Earth" "green" 5.972e24 2e10 6.378e6 [2.25e11; 0] earth);
      try reflexivity; [| lra].
    rewrite (surface_gravity_constructed falcon
               ([earth; mars] ++ asteroids_of draws) (universe_of draws)
               "Mars" "red" 6.417e23 1.5e10 3.389e6 [0; 0] mars);
      try reflexivity; [| lra].
    assert (Hj : Universe.find_planet (Universe.planets (universe_of draws))
                   "Jupiter" = None).
    { apply find_planet_none.
      intros planet [<- | [<- | Hin]]; try discriminate.
      apply in_asteroids_of in Hin as [i [d [-> _]]]. discriminate. }
    unfold gravity_on_planet_surface at 1.
    now rewrite (get_planet_missing _ _ Hj).
  - unfold pow. split; lra.
Qed.

Lemma get_planet_first_match_witness :
  Universe.get_planet two_bodies "Mars"
  = ret (Some (sample_planet "Mars" 1 2 0 1)).
Proof.
  apply (get_planet_first_match two_bodies "Mars"
           (sample_planet "Mars" 1 2 0 1)).
  exists [sample_planet "Earth" 1 0 0 1], []. repeat split.
  intros other [<- | []]. simpl. discriminate.
Defined.

Lemma fuel_consumption_sign_witness :
  fuel_consumption (thrust_array [(3, 4)]) (1 / 2)
  = ret (Some (1 / 2 * energy_sum [(3, 4)]))
  /\ 0 <= 1 / 2 * energy_sum [(3, 4)].
Proof.
  destruct (fuel_consumption_sign [(3, 4)] (1 / 2)) as [Hrun [Hsign _]].
  split; [exact Hrun |]. apply Hsign. lra.
Defined.

Lemma thrust_limit_bounds_norm_witness :
  holds (fun _ => 0) (thrust_limit_constraint sample_rocket 0).
Proof.
  apply (thrust_limit_bounds_norm (fun _ => 0) sample_rocket 0).
  unfold thrust_energy. simpl.
  replace (0 * 0 + 0 * 0) with 0 by ring. rewrite sqrt_0. apply Rabs_pos.
Defined.
